(** * parser_tools: the statement splitter and its DuckDB entry points

    A shallow embedding of [src/parse_statements.cpp] (together with the
    record declarations of [src/include/parse_statements.hpp] and
    [src/include/parse_where.hpp]) and the properties of the statement
    extraction surface: [parse_statements] as a table function,
    [parse_statements] as a scalar function and [num_statements].

    DuckDB itself (the SQL parser, [SQLStatement::ToString], the list
    vector buffer) is an external collaborator.  It is not translated; it
    enters the development as the interface [DuckDB] below. *)

From stdpp Require Import base tactics option list strings numbers.

Local Open Scope Z_scope.

(** ** Machine integers

    [idx_t] and [size_t] are unsigned 64-bit, [int64_t] is signed 64-bit.
    Values are kept in [Z]; every arithmetic operation of the source is
    followed by its wrap-around. *)

Definition idx_wrap (n : Z) : Z := n mod 2 ^ 64.

Definition idx_add (a b : Z) : Z := idx_wrap (a + b).

(** [static_cast<int64_t>(n)] for an unsigned 64-bit [n]. *)
Definition static_cast_int64 (n : Z) : Z := (n + 2 ^ 63) mod 2 ^ 64 - 2 ^ 63.

(** [v.size()] of a vector. *)
Definition size {A} (v : list A) : Z := Z.of_nat (length v).

(** [v.empty()] of a vector. *)
Definition empty {A} (v : list A) : bool :=
  match v with
  | [] => true
  | _ :: _ => false
  end.

(** ** Exceptions

    C++ exceptions are made explicit: a call either returns a value or
    throws.  Only the distinction the source makes is kept, namely whether
    the exception is a [ParserException] (the one [catch] clause of
    [ExtractStatementsFromSQL]) or anything else. *)

Inductive Exception : Type :=
| ParserException (msg : string)
| OtherException (what : string).

Inductive Outcome (A : Type) : Type :=
| Returns (a : A)
| Throws (e : Exception).
Arguments Returns {A} a.
Arguments Throws {A} e.

#[global] Instance Outcome_ret : MRet Outcome := fun _ a => Returns a.

#[global] Instance Outcome_bind : MBind Outcome := fun _ _ k m =>
  match m with
  | Returns a => k a
  | Throws e => Throws e
  end.

#[global] Instance Outcome_fmap : FMap Outcome := fun _ _ f m =>
  match m with
  | Returns a => Returns (f a)
  | Throws e => Throws e
  end.

(** ** The external collaborator *)

(** What the code uses of DuckDB.
    - [ParseQuery sql] is [Parser parser; parser.ParseQuery(sql)] followed
      by reading [parser.statements]: a vector of owning pointers, each of
      which may be null ([None]).
    - [ToString] is [SQLStatement::ToString]; like any call it returns
      or throws.
    - [reserve_capacity cap n] is the capacity of a list vector's child
      buffer after [ListVector::Reserve(result, n)] when it was [cap]. *)
Class DuckDB : Type := {
  SQLStatement : Type;
  ParseQuery : string → Outcome (list (option SQLStatement));
  ToString : SQLStatement → Outcome string;
  reserve_capacity : Z → Z → Z;
}.

(** The part of DuckDB's contract the proofs rely on: a [std::vector]
    holds fewer than [2^63] elements (its [max_size]), and [Reserve]
    makes room for at least the requested number of entries without
    shrinking the buffer. *)
Class DuckDBOk (D : DuckDB) : Prop := {
  statements_max_size :
    ∀ sql statements,
      ParseQuery sql = Returns statements → size statements < 2 ^ 63;
  reserve_capacity_ge :
    ∀ cap n, n ≤ reserve_capacity cap n ∧ cap ≤ reserve_capacity cap n;
}.

(** A [Value]: SQL NULL ([Value()]) or a VARCHAR ([Value(std::string)]). *)
Inductive Value : Type :=
| Value_NULL
| Value_VARCHAR (s : string).

(** A [DataChunk] with a single column, as the list of its rows. *)
Definition DataChunk : Type := list Value.

(** [list_entry_t]: where a row's list lies in the child vector. *)
Module list_entry.
Record t : Type := { offset : Z; length : Z }.
End list_entry.

(** A LIST(VARCHAR) result vector: the child buffer ([capacity] slots, of
    which the first [list_size] are in use) shared by all rows. *)
Record ListVector : Type := {
  child : list string;
  list_size : Z;
}.

Definition GetListSize (v : ListVector) : Z := list_size v.
Definition GetListCapacity (v : ListVector) : Z := size (child v).

(** The list a row's entry denotes. *)
Definition list_value (v : ListVector) (e : list_entry.t) : list string :=
  take (Z.to_nat (list_entry.length e)) (drop (Z.to_nat (list_entry.offset e)) (child v)).

(** [UnaryExecutor::Execute] over a flat input vector: the rows are
    visited in order, a NULL row gives a NULL result without calling the
    function, and an exception of the function ends the execution.  [S] is
    what the function captures by reference. *)
Fixpoint UnaryExecutor_Execute {S R : Type} (f : string → S → Outcome (R * S))
    (args : list (option string)) (captured : S) : Outcome (list (option R) * S) :=
  match args with
  | [] => mret ([], captured)
  | None :: args =>
      '(out, captured) ← UnaryExecutor_Execute f args captured;
      mret (None :: out, captured)
  | Some input :: args =>
      '(r, captured) ← f input captured;
      '(out, captured) ← UnaryExecutor_Execute f args captured;
      mret (Some r :: out, captured)
  end.

(** ** [parse_statements.hpp] *)

Record StatementResult : Type := { statement : string }.

#[global] Instance StatementResult_eq_dec : EqDecision StatementResult.
Proof. solve_decision. Defined.

(** ** [parse_statements.cpp] *)

Section parse_statements.
Context {D : DuckDB}.

(** The body of the [for] loop of [ExtractStatementsFromSQL], on the
    vector [results] it pushes to: the vector after the body and how the
    body is left.  A non-null statement is printed and pushed, a null one
    is passed over; when [ToString] throws nothing is pushed and the
    exception leaves the body. *)
Definition push_statement (results : list StatementResult)
    (stmt : option SQLStatement) : list StatementResult * Outcome unit :=
  match stmt with
  | Some stmt =>
      match ToString stmt with
      | Returns statement_str =>
          (results ++ [{| statement := statement_str |}], Returns ())
      | Throws e => (results, Throws e)
      end
  | None => (results, Returns ())
  end.

(** The [for] loop over [parser.statements].  Nothing catches inside it:
    an exception of the body ends the loop and leaves [results] with what
    was pushed until then. *)
Fixpoint push_statements (results : list StatementResult)
    (statements : list (option SQLStatement))
    : list StatementResult * Outcome unit :=
  match statements with
  | [] => (results, Returns ())
  | stmt :: statements =>
      match push_statement results stmt with
      | (results, Returns _) => push_statements results statements
      | (results, Throws e) => (results, Throws e)
      end
  end.

(** [ExtractStatementsFromSQL(sql, results)] with its in-out parameter:
    the content of [results] when the call is left, and how it is left.
    The [try] encloses [ParseQuery] only and catches [ParserException]
    only; the loop runs after it. *)
Definition ExtractStatementsFromSQL_in_place (sql : string)
    (results : list StatementResult) : list StatementResult * Outcome unit :=
  match ParseQuery sql with
  | Throws (ParserException _) => (results, Returns ())
  | Throws e => (results, Throws e)
  | Returns statements => push_statements results statements
  end.

(** The same call for a caller that goes on only when it returns: the
    content of [results] then, or the exception. *)
Definition ExtractStatementsFromSQL (sql : string)
    (results : list StatementResult) : Outcome (list StatementResult) :=
  let '(results, exit) := ExtractStatementsFromSQL_in_place sql results in
  _ ← exit; mret results.

(** *** The table function *)

(** [ParseStatementsState]: the cursor and the memoized collection. *)
Record ParseStatementsState : Type := {
  row : Z;
  results : list StatementResult;
}.

Record ParseStatementsBindData : Type := { sql : string }.

(** [ParseStatementsBind]: the bind data carries the argument. *)
Definition ParseStatementsBind (sql_input : string) : ParseStatementsBindData :=
  {| sql := sql_input |}.

(** [ParseStatementsInit]: a default-constructed state. *)
Definition ParseStatementsInit : ParseStatementsState :=
  {| row := 0; results := [] |}.

(** What one call of [ParseStatementsFunction] does: whether it ran
    [ExtractStatementsFromSQL] (a ghost flag, used to count
    extractions), the state it leaves and the rows it put in the output
    chunk.  The chunk has one column and is handed in empty, so it is
    the list of its rows. *)
Record Pull : Type := {
  extracted : bool;
  state_after : ParseStatementsState;
  output : DataChunk;
}.

(** [ParseStatementsFunction].  An exception of the extraction leaves
    the call; what the extraction had pushed to [state.results] until
    then is what [ExtractStatementsFromSQL_in_place] gives. *)
Definition ParseStatementsFunction (bind_data : ParseStatementsBindData)
    (state : ParseStatementsState) : Outcome Pull :=
  let first := empty (results state) && (row state =? 0) in
  state ← (if first
           then results' ← ExtractStatementsFromSQL (sql bind_data) (results state);
                mret {| row := row state; results := results' |}
           else mret state);
  if size (results state) <=? row state
  then mret {| extracted := first; state_after := state; output := [] |}
  else
    match results state !! Z.to_nat (row state) with
    | Some stmt =>
        mret {| extracted := first;
                state_after := {| row := idx_add (row state) 1;
                                  results := results state |};
                output := [Value_VARCHAR (statement stmt)] |}
    | None => Throws (OtherException "vector index out of range")
    end.

(** [ParseStatementsFunction] with the state it works on in place: the
    state when the call is left and how it is left (whether it extracted
    and the rows of the chunk, or the exception).  It differs from the
    above in also giving the state a throwing call leaves behind. *)
Definition ParseStatementsFunction_in_place (bind_data : ParseStatementsBindData)
    (state : ParseStatementsState)
    : ParseStatementsState * Outcome (bool * DataChunk) :=
  let first := empty (results state) && (row state =? 0) in
  let '(results', exit) :=
    if first
    then ExtractStatementsFromSQL_in_place (sql bind_data) (results state)
    else (results state, Returns ()) in
  let state := {| row := row state; results := results' |} in
  match exit with
  | Throws e => (state, Throws e)
  | Returns _ =>
      if size (results state) <=? row state
      then (state, Returns (first, []))
      else
        match results state !! Z.to_nat (row state) with
        | Some stmt =>
            ({| row := idx_add (row state) 1; results := results state |},
             Returns (first, [Value_VARCHAR (statement stmt)]))
        | None => (state, Throws (OtherException "vector index out of range"))
        end
  end.

(** [n] successive calls on one state: the number of calls that ran the
    extraction, the final state and the chunks produced, in order. *)
Fixpoint pulls (n : nat) (bind_data : ParseStatementsBindData)
    (state : ParseStatementsState)
    : Outcome (nat * ParseStatementsState * list DataChunk) :=
  match n with
  | O => mret (O, state, [])
  | S n =>
      p ← ParseStatementsFunction bind_data state;
      '(k, final, chunks) ← pulls n bind_data (state_after p);
      mret ((if extracted p then S k else k), final, output p :: chunks)
  end.

(** The host's scan of a table function: call it until it leaves the
    chunk empty, and concatenate the rows.  [None] when [fuel] calls did
    not reach the end of the sequence. *)
Fixpoint table_scan (fuel : nat) (bind_data : ParseStatementsBindData)
    (state : ParseStatementsState) : Outcome (option (list Value)) :=
  match fuel with
  | O => mret None
  | S fuel =>
      p ← ParseStatementsFunction bind_data state;
      match output p with
      | [] => mret (Some [])
      | chunk =>
          rest ← table_scan fuel bind_data (state_after p);
          mret ((chunk ++.) <$> rest)
      end
  end.

(** *** The scalar functions *)

(** [ListVector::Reserve(result, required)]: the child buffer grows to
    the capacity DuckDB chooses; the entries already there stay. *)
Definition ListVector_Reserve (result : ListVector) (required : Z) : ListVector :=
  let new_capacity := reserve_capacity (GetListCapacity result) required in
  {| child := child result
                ++ replicate (Z.to_nat (new_capacity - GetListCapacity result)) "";
     list_size := list_size result |}.

(** The loop writing [parsed_statements[i]] to [statements[current_size + i]]
    for [i] from [0]; the list argument is the part of
    [parsed_statements] from index [i] on.  The source writes through a
    raw pointer; a write past the buffer is left without effect here
    (it cannot happen after the [Reserve], see [write_statements_spec]). *)
Fixpoint write_statements (statements : list string) (current_size i : Z)
    (parsed_statements : list StatementResult) : list string :=
  match parsed_statements with
  | [] => statements
  | stmt :: rest =>
      write_statements
        (<[Z.to_nat (idx_add current_size i) := statement stmt]> statements)
        current_size (idx_add i 1) rest
  end.

(** The lambda of [ParseStatementsScalarFunction], with the captured
    [result] vector threaded through. *)
Definition ParseStatementsScalar_lambda (query : string) (result : ListVector)
    : Outcome (list_entry.t * ListVector) :=
  let query_string := query in
  parsed_statements ← ExtractStatementsFromSQL query_string [];
  let current_size := GetListSize result in
  let number_of_statements := size parsed_statements in
  let new_size := idx_add current_size number_of_statements in
  let result := if GetListCapacity result <? new_size
                then ListVector_Reserve result new_size
                else result in
  let statements := write_statements (child result) current_size 0 parsed_statements in
  let result := {| child := statements; list_size := new_size |} in
  mret ({| list_entry.offset := current_size;
           list_entry.length := number_of_statements |}, result).

(** The lambda of [NumStatementsScalarFunction]. *)
Definition NumStatements_lambda (query : string) : Outcome Z :=
  let query_string := query in
  parsed_statements ← ExtractStatementsFromSQL query_string [];
  mret (static_cast_int64 (size parsed_statements)).

Definition ParseStatementsScalarFunction (args : list (option string))
    (result : ListVector) : Outcome (list (option list_entry.t) * ListVector) :=
  UnaryExecutor_Execute ParseStatementsScalar_lambda args result.

Definition NumStatementsScalarFunction (args : list (option string))
    : Outcome (list (option Z)) :=
  fst <$> UnaryExecutor_Execute
            (λ query (_ : unit), n ← NumStatements_lambda query; mret (n, ()))
            args ().

End parse_statements.

(** ** [parse_where.hpp]

    The predicate records.  The header declares them; the code that fills
    and exposes them ([parse_where.cpp]) is not among the sources. *)

Module WhereConditionResult.
Record t : Type := {
  condition : string;
  table_name : string;
  context : string;
}.
End WhereConditionResult.

Module DetailedWhereConditionResult.
Record t : Type := {
  column_name : string;
  operator_type : string;
  value : string;
  table_name : string;
  context : string;
}.
End DetailedWhereConditionResult.

(** ** Vocabulary

    The notions the statements below are written in.  None of them is
    code of the extension. *)

Section vocabulary.
Context {D : DuckDB}.

(** The record [r] holds what [ToString] returned for [stmt]. *)
Definition printed_as (stmt : SQLStatement) (r : StatementResult) : Prop :=
  ToString stmt = Returns (statement r).

(** The top-level statements of a parse: the non-null entries. *)
Definition top_level (statements : list (option SQLStatement)) : list SQLStatement :=
  omap id statements.

(** The records a call adds to [results]: they do not depend on what
    [results] held. *)
Definition extracted_from (sql : string) : Outcome (list StatementResult) :=
  ExtractStatementsFromSQL sql [].

(** The row a record becomes in the output chunk. *)
Definition row_of (r : StatementResult) : Value := Value_VARCHAR (statement r).

(** The entries of the child buffer that are in use. *)
Definition used (v : ListVector) : list string :=
  take (Z.to_nat (list_size v)) (child v).

(** The size of a list vector lies within its capacity. *)
Definition well_formed (v : ListVector) : Prop :=
  0 ≤ list_size v ≤ GetListCapacity v.

(** The number of statements of one input, and of a batch. *)
Definition statement_count (query : string) : Z :=
  match extracted_from query with
  | Returns out => size out
  | Throws _ => 0
  end.

Fixpoint batch_count (args : list (option string)) : Z :=
  match args with
  | [] => 0
  | None :: args => batch_count args
  | Some query :: args => statement_count query + batch_count args
  end.

(** The statement texts of one input, and of a batch, in order. *)
Definition statement_texts (query : string) : list string :=
  match extracted_from query with
  | Returns out => statement <$> out
  | Throws _ => []
  end.

Fixpoint batch_texts (args : list (option string)) : list string :=
  match args with
  | [] => []
  | None :: args => batch_texts args
  | Some query :: args => statement_texts query ++ batch_texts args
  end.

(** The entries of a batch whose first row starts at [offset]: each
    row's slice starts where the previous one ends. *)
Fixpoint entries_from (offset : Z) (args : list (option string))
    : list (option list_entry.t) :=
  match args with
  | [] => []
  | None :: args => None :: entries_from offset args
  | Some query :: args =>
      Some {| list_entry.offset := offset;
              list_entry.length := statement_count query |}
        :: entries_from (offset + statement_count query) args
  end.

Definition reparses_to_one_statement (text : string) : Prop :=
  ∃ stmt, ParseQuery text = Returns [Some stmt].

(** The cursor of the table function lies within its collection. *)
Definition cursor_in_range (state : ParseStatementsState) : Prop :=
  0 ≤ row state ≤ size (results state).

(** The indices the writing loop visits ([current_size + i] for the
    statements from index [i] on, computed as the loop computes them) all
    lie below [capacity]. *)
Fixpoint writes_in_bounds (capacity current_size i : Z)
    (parsed_statements : list StatementResult) : Prop :=
  match parsed_statements with
  | [] => True
  | _ :: rest =>
      idx_add current_size i < capacity
      ∧ writes_in_bounds capacity current_size (idx_add i 1) rest
  end.

(** The lists of the rows of a batch that are not NULL, in row order. *)
Definition row_lists (v : ListVector) (entries : list (option list_entry.t))
    : list (list string) :=
  list_value v <$> omap id entries.

End vocabulary.

(** ** What the sources do not contain

    [parse_tables.cpp], [parse_where.cpp] and [parse_functions.cpp] are
    not among the sources; what is said about them is modelled from the
    specification. *)

Section modelled_from_the_spec.
Context {D : DuckDB}.

(** Modelled from the spec: the table attribution of [parse_where.cpp],
    which is missing from the sources.  Spec 4.3: "attempt table
    attribution by checking whether all column references in the
    conjunct resolve to exactly one table in scope; if so, set
    [table_name]; otherwise leave it empty (ambiguous -- never guess)".
    [resolved] lists, for each column reference of the conjunct, the
    table it resolves to. *)
Definition attribute_table (resolved : list string) : string :=
  match remove_dups resolved with
  | [table] => table
  | _ => ""
  end.

(** Modelled from the spec: how [parse_where.cpp], missing from the
    sources, hands [table_name] to the caller.  Spec 6: "field absence
    (e.g., unattributable [table_name]) must be representable as an
    explicit no value rather than an empty string"; the field left
    empty becomes SQL NULL. *)
Definition expose_table_name (table_name : string) : Value :=
  if bool_decide (table_name = "") then Value_NULL else Value_VARCHAR table_name.

(** Modelled from the spec: the coarse record of one conjunct (spec 3
    and 4.3), built by the missing [parse_where.cpp]. *)
Definition coarse_record (condition context : string) (resolved : list string)
    : WhereConditionResult.t :=
  {| WhereConditionResult.condition := condition;
     WhereConditionResult.table_name := attribute_table resolved;
     WhereConditionResult.context := context |}.

(** Modelled from the spec: the detailed record of one conjunct (spec 3
    and 4.3), attributed as the coarse one is. *)
Definition detailed_record (column_name operator_type value context : string)
    (resolved : list string) : DetailedWhereConditionResult.t :=
  {| DetailedWhereConditionResult.column_name := column_name;
     DetailedWhereConditionResult.operator_type := operator_type;
     DetailedWhereConditionResult.value := value;
     DetailedWhereConditionResult.table_name := attribute_table resolved;
     DetailedWhereConditionResult.context := context |}.

(** All column references of a conjunct belong to the one table [table]. *)
Definition attributable_to (resolved : list string) (table : string) : Prop :=
  resolved ≠ [] ∧ ∀ t, t ∈ resolved → t = table.

(** Modelled from the spec: the extractors for tables, predicates and
    function calls, whose code ([parse_tables.cpp], [parse_where.cpp],
    [parse_functions.cpp]) is missing from the sources.  Spec 4.5: the
    facade "orchestrates 1 -> {2,3,4} per statement, aggregates
    results"; spec 7: the syntax-error policy applies to "the Splitter
    and every downstream extractor that is fed its output".  [extractor]
    is the per-statement extractor. *)
Definition facade_extract {R : Type} (extractor : StatementResult → list R)
    (sql : string) : Outcome (list R) :=
  statements ← extracted_from sql;
  mret (statements ≫= extractor).

End modelled_from_the_spec.

(** ** A test double for DuckDB

    A parser with a fixed table of inputs, standing in for DuckDB where a
    statement is evaluated on a concrete input.  It accepts a few [SELECT]
    scripts, reports a syntax error on everything it does not know, has one
    input whose statement vector contains a null entry, one on which it
    fails with an exception that is not a [ParserException], and one with
    a statement its printer does not support. *)

Module Stub.

Inductive stmt : Type := Select (n : nat) | Vacuum.

Definition to_string (s : stmt) : Outcome string :=
  match s with
  | Select 1 => Returns "SELECT 1"
  | Select 2 => Returns "SELECT 2"
  | Select _ => Returns "SELECT 0"
  | Vacuum => Throws (OtherException "ToString not supported")
  end.

Definition parse_query (sql : string) : Outcome (list (option stmt)) :=
  if bool_decide (sql = "") then Returns []
  else if bool_decide (sql = "SELECT 1") then Returns [Some (Select 1)]
  else if bool_decide (sql = "SELECT 2") then Returns [Some (Select 2)]
  else if bool_decide (sql = "SELECT 1; SELECT 2;")
       then Returns [Some (Select 1); Some (Select 2)]
  else if bool_decide (sql = "SELECT 1;; SELECT 2;")
       then Returns [Some (Select 1); None; Some (Select 2)]
  else if bool_decide (sql = "SELECT 1; VACUUM; SELECT 2;")
       then Returns [Some (Select 1); Some Vacuum; Some (Select 2)]
  else if bool_decide (sql = "PRAGMA crash")
       then Throws (OtherException "INTERNAL Error")
  else Throws (ParserException "syntax error").

(** The buffer doubles until the request fits. *)
Definition reserve (cap n : Z) : Z := Z.max (Z.max cap n) (2 * cap).

#[local] Instance duckdb : DuckDB := {|
  SQLStatement := stmt;
  ParseQuery := parse_query;
  ToString := to_string;
  reserve_capacity := reserve;
|}.

End Stub.

(** The same parser with a printer whose output the parser rejects. *)

Module LossyPrinter.

#[local] Instance lossy : DuckDB := {|
  SQLStatement := Stub.stmt;
  ParseQuery := Stub.parse_query;
  ToString := λ _, Returns "<statement>";
  reserve_capacity := Stub.reserve;
|}.

End LossyPrinter.

(** A collaborator that cannot be used without being noticed: its parser
    and its printer throw on every input. *)

Module Probe.

#[local] Instance probe : DuckDB := {|
  SQLStatement := unit;
  ParseQuery := λ _, Throws (OtherException "parser called");
  ToString := λ _, Throws (OtherException "printer called");
  reserve_capacity := Stub.reserve;
|}.

End Probe.

(** A result vector that holds nothing yet and has no room. *)
Definition empty_result : ListVector := {| child := []; list_size := 0 |}.

(** A batch with a script, a NULL and a malformed text. *)
Definition batch : list (option string) :=
  [Some "SELECT 1; SELECT 2;"; None; Some "SELEC * FRM;"; Some "SELECT 2"].

(** The batch above, slice by slice. *)
Definition batch_result : list (option list_entry.t) * ListVector :=
  ([Some {| list_entry.offset := 0; list_entry.length := 2 |};
    None;
    Some {| list_entry.offset := 2; list_entry.length := 0 |};
    Some {| list_entry.offset := 2; list_entry.length := 1 |}],
   {| child := ["SELECT 1"; "SELECT 2"; "SELECT 2"; ""]; list_size := 3 |}).

(** A result vector with one entry in use and room for two more. *)
Definition roomy_result : ListVector :=
  {| child := ["SELECT 0"; ""; ""]; list_size := 1 |}.

(** A request that has handed out its first row. *)
Definition second_call : ParseStatementsState :=
  {| row := 1;
     results := [{| statement := "SELECT 1" |}; {| statement := "SELECT 2" |}] |}.

(** ** The statement splitter *)

Section splitter.
Context {D : DuckDB}.

(** The loop pushes behind what [results] holds, and what it pushes and
    how it is left do not depend on that content. *)
Lemma push_statements_app statements : ∀ results,
  push_statements results statements
  = (results ++ (push_statements [] statements).1,
     (push_statements [] statements).2).
Proof.
  induction statements as [|[stmt|] statements IH]; intros results;
    cbn [push_statements push_statement].
  - cbn. by rewrite app_nil_r.
  - destruct (ToString stmt) as [text|e].
    + rewrite (IH (results ++ _)), (IH ([] ++ _)). cbn [fst snd].
      by rewrite <- app_assoc.
    + cbn. by rewrite app_nil_r.
  - apply IH.
Qed.

(** What the loop leaves behind: the texts of the statements before the
    first one whose printing throws, one record each and in order; it
    returns when there is no such statement. *)
Lemma push_statements_spec statements :
  ∃ printed,
    Forall2 printed_as printed (push_statements [] statements).1
    ∧ match (push_statements [] statements).2 with
      | Returns _ => printed = top_level statements
      | Throws e =>
          ∃ stmt rest,
            top_level statements = printed ++ stmt :: rest
            ∧ ToString stmt = Throws e
      end.
Proof.
  induction statements as [|[stmt|] statements IH];
    cbn [push_statements push_statement].
  - exists []. by split.
  - destruct (ToString stmt) as [text|e] eqn:Hprint.
    + destruct IH as (printed & Hprinted & Hexit).
      rewrite push_statements_app. cbn [fst snd]. exists (stmt :: printed). split.
      * cbn. by constructor.
      * destruct (push_statements [] statements).2 as [[]|e].
        -- by rewrite Hexit.
        -- destruct Hexit as (bad & rest & Htop & Hbad).
           exists bad, rest. split; [|done]. unfold top_level in *. cbn.
           by rewrite Htop.
    + exists []. split; [by constructor|]. by exists stmt, (top_level statements).
  - apply IH.
Qed.

Lemma ExtractStatementsFromSQL_in_place_accepted sql statements results :
  ParseQuery sql = Returns statements →
  ExtractStatementsFromSQL_in_place sql results
  = (results ++ (push_statements [] statements).1,
     (push_statements [] statements).2).
Proof.
  intros Hparse. unfold ExtractStatementsFromSQL_in_place. rewrite Hparse.
  apply push_statements_app.
Qed.

(** An accepted text all of whose statements the printer prints. *)
Lemma ExtractStatementsFromSQL_accepted sql statements results :
  ParseQuery sql = Returns statements →
  (∀ stmt, stmt ∈ top_level statements → ∃ text, ToString stmt = Returns text) →
  ∃ added,
    ExtractStatementsFromSQL sql results = Returns (results ++ added)
    ∧ Forall2 printed_as (top_level statements) added.
Proof.
  intros Hparse Hprints. unfold ExtractStatementsFromSQL.
  rewrite (ExtractStatementsFromSQL_in_place_accepted _ _ _ Hparse).
  destruct (push_statements_spec statements) as (printed & Hprinted & Hexit).
  destruct (push_statements [] statements) as [added [[]|e]]; cbn [fst snd] in *.
  - exists added. subst printed. by split.
  - destruct Hexit as (bad & rest & Htop & Hbad).
    destruct (Hprints bad) as [text Htext]; [|congruence].
    rewrite Htop. apply elem_of_app. right. left.
Qed.

(** An accepted text without statements is left as a syntax error is. *)
Lemma ExtractStatementsFromSQL_no_statement sql statements results :
  ParseQuery sql = Returns statements →
  top_level statements = [] →
  ExtractStatementsFromSQL sql results = Returns results.
Proof.
  intros Hparse Hnone.
  destruct (ExtractStatementsFromSQL_accepted sql statements results Hparse)
    as (added & -> & Hadded).
  - rewrite Hnone. intros stmt Hin. by apply elem_of_nil in Hin.
  - rewrite Hnone in Hadded. apply Forall2_nil_inv_l in Hadded as ->.
    by rewrite app_nil_r.
Qed.

Lemma ExtractStatementsFromSQL_syntax_error sql msg results :
  ParseQuery sql = Throws (ParserException msg) →
  ExtractStatementsFromSQL sql results = Returns results.
Proof.
  intros Hparse. unfold ExtractStatementsFromSQL, ExtractStatementsFromSQL_in_place.
  by rewrite Hparse.
Qed.

Lemma ExtractStatementsFromSQL_other sql what results :
  ParseQuery sql = Throws (OtherException what) →
  ExtractStatementsFromSQL sql results = Throws (OtherException what).
Proof.
  intros Hparse. unfold ExtractStatementsFromSQL, ExtractStatementsFromSQL_in_place.
  by rewrite Hparse.
Qed.

Lemma ExtractStatementsFromSQL_app sql results :
  ExtractStatementsFromSQL sql results = (results ++.) <$> extracted_from sql.
Proof.
  unfold extracted_from, ExtractStatementsFromSQL, ExtractStatementsFromSQL_in_place.
  destruct (ParseQuery sql) as [statements|[msg|what]].
  - rewrite push_statements_app.
    by destruct (push_statements [] statements) as [added [[]|e]].
  - cbn. by rewrite app_nil_r.
  - done.
Qed.

(** Where an exception that leaves the extraction comes from: the parser,
    when it is not a [ParserException], or the printer, at a statement
    of an accepted text. *)
Lemma extracted_from_throws_inv sql e :
  extracted_from sql = Throws e →
  (ParseQuery sql = Throws e ∧ ∀ msg, e ≠ ParserException msg)
  ∨ (∃ statements stmt,
       ParseQuery sql = Returns statements
       ∧ Some stmt ∈ statements
       ∧ ToString stmt = Throws e).
Proof.
  unfold extracted_from, ExtractStatementsFromSQL, ExtractStatementsFromSQL_in_place.
  destruct (ParseQuery sql) as [statements|[msg|what]] eqn:Hparse.
  - destruct (push_statements_spec statements) as (printed & _ & Hexit).
    destruct (push_statements [] statements) as [added [[]|e']]; [done|].
    cbn [fst snd mbind Outcome_bind] in *. intros [= <-]. right.
    destruct Hexit as (bad & rest & Htop & Hbad). exists statements, bad.
    split; [done|]. split; [|done].
    assert (bad ∈ top_level statements) as Hin
      by (rewrite Htop; apply elem_of_app; right; left).
    unfold top_level in Hin. apply list_elem_of_omap in Hin as (o & Ho & Hid).
    cbn in Hid. by subst o.
  - done.
  - intros [= <-]. left. by split.
Qed.

Lemma top_level_length statements :
  length (top_level statements) = length (filter is_Some statements).
Proof.
  unfold top_level.
  induction statements as [|[stmt|] statements IH]; [done| |].
  - rewrite filter_cons_True by eauto. cbn. by f_equal.
  - rewrite filter_cons_False by (by intros [? ?]). done.
Qed.

Lemma top_level_Some (stmts : list SQLStatement) :
  top_level (Some <$> stmts) = stmts.
Proof.
  unfold top_level. induction stmts as [|stmt stmts IH]; [done|]. cbn. by f_equal.
Qed.

Lemma size_nonneg {A} (v : list A) : 0 ≤ size v.
Proof. unfold size. lia. Qed.

Lemma extracted_from_size_bound `{!DuckDBOk D} sql out :
  extracted_from sql = Returns out → size out < 2 ^ 63.
Proof.
  unfold extracted_from, ExtractStatementsFromSQL, ExtractStatementsFromSQL_in_place.
  destruct (ParseQuery sql) as [statements|[msg|what]] eqn:Hparse.
  - destruct (push_statements_spec statements) as (printed & Hprinted & Hexit).
    destruct (push_statements [] statements) as [added [[]|e]]; [|done].
    cbn [fst snd mbind Outcome_bind mret Outcome_ret] in *. intros [= <-].
    subst printed. apply Forall2_length in Hprinted.
    pose proof (statements_max_size _ _ Hparse) as Hmax.
    unfold size in *. rewrite <- Hprinted, top_level_length.
    pose proof (length_filter (is_Some (A:=SQLStatement)) statements). lia.
  - intros [= <-]. by vm_compute.
  - done.
Qed.

End splitter.

(** ** The table function, call by call *)

Section table_function.
Context {D : DuckDB}.

Lemma empty_false {A} (v : list A) : v ≠ [] → empty v = false.
Proof. by destruct v. Qed.

Lemma idx_add_succ (k : nat) :
  Z.of_nat k + 1 < 2 ^ 64 → idx_add (Z.of_nat k) 1 = Z.of_nat (S k).
Proof.
  intros Hk. unfold idx_add, idx_wrap. rewrite Z.mod_small by lia. lia.
Qed.

(** The first call: the extraction runs. *)
Lemma pull_first sql out :
  extracted_from sql = Returns out →
  ParseStatementsFunction (ParseStatementsBind sql) ParseStatementsInit
  = Returns
      match out with
      | [] => {| extracted := true; state_after := ParseStatementsInit;
                 output := [] |}
      | r :: _ => {| extracted := true;
                     state_after := {| row := 1; results := out |};
                     output := [row_of r] |}
      end.
Proof.
  unfold extracted_from, ParseStatementsFunction. cbn. intros ->. cbn.
  by destruct out as [|r out].
Qed.

Lemma pull_first_throws sql e :
  extracted_from sql = Throws e →
  ParseStatementsFunction (ParseStatementsBind sql) ParseStatementsInit = Throws e.
Proof. unfold extracted_from, ParseStatementsFunction. cbn. by intros ->. Qed.

(** A later call while records remain: served from the collection. *)
Lemma pull_memoized bind_data out (k : nat) r :
  out ≠ [] → size out < 2 ^ 64 → out !! k = Some r →
  ParseStatementsFunction bind_data {| row := Z.of_nat k; results := out |}
  = Returns {| extracted := false;
               state_after := {| row := Z.of_nat (S k); results := out |};
               output := [row_of r] |}.
Proof.
  intros Hne Hsize Hk. unfold ParseStatementsFunction. cbn.
  rewrite (empty_false out) by done. cbn.
  pose proof (lookup_lt_Some _ _ _ Hk) as Hlt.
  rewrite (proj2 (Z.leb_gt _ _)) by (unfold size; lia).
  rewrite Nat2Z.id, Hk.
  rewrite idx_add_succ by (unfold size in Hsize; lia). done.
Qed.

(** A call after the last record: the chunk stays empty. *)
Lemma pull_exhausted bind_data out (k : nat) :
  out ≠ [] → (length out ≤ k)%nat →
  ParseStatementsFunction bind_data {| row := Z.of_nat k; results := out |}
  = Returns {| extracted := false;
               state_after := {| row := Z.of_nat k; results := out |};
               output := [] |}.
Proof.
  intros Hne Hk. unfold ParseStatementsFunction. cbn.
  rewrite (empty_false out) by done. cbn.
  rewrite (proj2 (Z.leb_le _ _)) by (unfold size; lia). done.
Qed.

(** The calls after the first, for a collection that is not empty: none
    extracts, and they hand out the remaining records one by one, then
    empty chunks. *)
Lemma pulls_memoized bind_data out : ∀ (n k : nat),
  out ≠ [] → size out < 2 ^ 64 →
  pulls n bind_data {| row := Z.of_nat k; results := out |}
  = Returns (O,
             {| row := Z.of_nat ((k + n) `min` (k `max` length out));
                results := out |},
             ((λ r, [row_of r]) <$> take n (drop k out))
               ++ replicate (n - (length out - k)) []).
Proof.
  induction n as [|n IH]; intros k Hne Hsize.
  - cbn. by replace ((k + 0) `min` (k `max` length out))%nat with k by lia.
  - cbn [pulls]. destruct (out !! k) as [r|] eqn:Hk.
    + rewrite (pull_memoized _ _ _ r) by done.
      cbn [mbind Outcome_bind extracted state_after output].
      rewrite IH by done. cbn [mbind Outcome_bind].
      pose proof (lookup_lt_Some _ _ _ Hk) as Hlt.
      rewrite (drop_S _ _ _ Hk), firstn_cons, fmap_cons, <- app_comm_cons.
      replace ((S k + n) `min` (S k `max` length out))%nat
        with ((k + S n) `min` (k `max` length out))%nat by lia.
      by replace (n - (length out - S k))%nat
        with (S n - (length out - k))%nat by lia.
    + apply lookup_ge_None in Hk.
      rewrite pull_exhausted by done.
      cbn [mbind Outcome_bind extracted state_after output].
      rewrite IH by done. cbn [mbind Outcome_bind].
      rewrite !drop_ge by lia. rewrite !take_nil, !fmap_nil, !app_nil_l.
      replace ((k + n) `min` (k `max` length out))%nat
        with ((k + S n) `min` (k `max` length out))%nat by lia.
      by replace (S n - (length out - k))%nat with (S n) by lia;
         replace (n - (length out - k))%nat with n by lia.
Qed.

(** When the extraction finds nothing the state is left as it was
    initialized, so every call is a first call. *)
Lemma pulls_nothing_found sql : ∀ n : nat,
  extracted_from sql = Returns [] →
  pulls n (ParseStatementsBind sql) ParseStatementsInit
  = Returns (n, ParseStatementsInit, replicate n []).
Proof.
  intros n Hout. induction n as [|n IH]; [done|].
  cbn [pulls]. rewrite (pull_first _ _ Hout).
  cbn [mbind Outcome_bind extracted state_after output]. by rewrite IH.
Qed.

(** The first call followed by [n] more, when the extraction found at
    least one statement: one extraction in all. *)
Lemma pulls_extract_once sql out (n : nat) :
  extracted_from sql = Returns out → out ≠ [] → size out < 2 ^ 64 →
  pulls (S n) (ParseStatementsBind sql) ParseStatementsInit
  = Returns (1%nat,
             {| row := Z.of_nat (S n `min` length out); results := out |},
             ((λ r, [row_of r]) <$> take (S n) out)
               ++ replicate (S n - length out) []).
Proof.
  intros Hout Hne Hsize. cbn [pulls]. rewrite (pull_first _ _ Hout).
  destruct out as [|r out]; [done|].
  cbn [mbind Outcome_bind extracted state_after output].
  rewrite (pulls_memoized _ _ n 1) by done. cbn [mbind Outcome_bind].
  rewrite firstn_cons, fmap_cons, <- app_comm_cons. cbn [drop].
  replace ((1 + n) `min` (1 `max` length (r :: out)))%nat
    with (S n `min` length (r :: out))%nat by (cbn [length]; lia).
  by replace (n - (length (r :: out) - 1))%nat
    with (S n - length (r :: out))%nat by (cbn [length]; lia).
Qed.

(** The host's scan from a cursor inside a collection that is not
    empty: the remaining records, in order, then the end. *)
Lemma table_scan_memoized bind_data out : ∀ (fuel k : nat),
  out ≠ [] → size out < 2 ^ 64 → (length out - k < fuel)%nat →
  table_scan fuel bind_data {| row := Z.of_nat k; results := out |}
  = Returns (Some (row_of <$> drop k out)).
Proof.
  induction fuel as [|fuel IH]; intros k Hne Hsize Hfuel; [lia|].
  cbn [table_scan]. destruct (out !! k) as [r|] eqn:Hk.
  - rewrite (pull_memoized _ _ _ r) by done.
    cbn [mbind Outcome_bind extracted state_after output].
    pose proof (lookup_lt_Some _ _ _ Hk) as Hlt.
    rewrite IH by (done || lia). cbn [mbind Outcome_bind mret Outcome_ret].
    by rewrite (drop_S _ _ _ Hk).
  - apply lookup_ge_None in Hk. rewrite pull_exhausted by done.
    cbn [mbind Outcome_bind extracted state_after output].
    by rewrite drop_ge by lia.
Qed.

(** The host's scan of a fresh request. *)
Lemma table_scan_fresh sql out (fuel : nat) :
  extracted_from sql = Returns out → size out < 2 ^ 64 →
  (length out < fuel)%nat →
  table_scan fuel (ParseStatementsBind sql) ParseStatementsInit
  = Returns (Some (row_of <$> out)).
Proof.
  intros Hout Hsize Hfuel. destruct fuel as [|fuel]; [lia|].
  cbn [table_scan]. rewrite (pull_first _ _ Hout).
  destruct out as [|r out]; [done|].
  cbn [mbind Outcome_bind extracted state_after output].
  rewrite (table_scan_memoized _ _ fuel 1) by (done || cbn [length] in *; lia).
  done.
Qed.

End table_function.

(** ** The scalar functions, row by row *)

Section scalar_functions.
Context {D : DuckDB}.

Lemma idx_add_small (a b : Z) :
  0 ≤ a → 0 ≤ b → a + b < 2 ^ 64 → idx_add a b = a + b.
Proof. intros. unfold idx_add, idx_wrap. apply Z.mod_small. lia. Qed.

Lemma static_cast_int64_small (n : Z) :
  0 ≤ n < 2 ^ 63 → static_cast_int64 n = n.
Proof. intros. unfold static_cast_int64. rewrite Z.mod_small; lia. Qed.

(** The writing loop fills the slots [current_size + i ..] of the buffer
    with the statements, in order, and touches nothing else. *)
Lemma write_statements_spec parsed : ∀ pre slots post (c j : nat),
  length pre = (c + j)%nat → length slots = length parsed →
  Z.of_nat (c + j + length parsed) < 2 ^ 64 →
  write_statements (pre ++ slots ++ post) (Z.of_nat c) (Z.of_nat j) parsed
  = pre ++ (statement <$> parsed) ++ post.
Proof.
  induction parsed as [|stmt parsed IH]; intros pre slots post c j Hpre Hslots Hfit.
  - by destruct slots.
  - destruct slots as [|slot slots]; [done|]. cbn [write_statements].
    cbn [length] in Hfit, Hslots.
    rewrite idx_add_small by lia. rewrite (idx_add_small _ 1) by lia.
    replace (Z.to_nat (Z.of_nat c + Z.of_nat j)) with (length pre + 0)%nat by lia.
    rewrite insert_app_r. cbn [app insert list_insert].
    replace (Z.of_nat j + 1) with (Z.of_nat (S j)) by lia.
    rewrite (cons_middle (statement stmt) pre), app_assoc.
    rewrite (IH (pre ++ [statement stmt]) slots post c (S j)).
    + by rewrite <- app_assoc.
    + rewrite length_app. cbn. lia.
    + lia.
    + lia.
Qed.

Lemma ListVector_Reserve_spec `{!DuckDBOk D} (result : ListVector) (required : Z) :
  ∃ room,
    child (ListVector_Reserve result required) = child result ++ room
    ∧ required ≤ GetListCapacity (ListVector_Reserve result required)
    ∧ list_size (ListVector_Reserve result required) = list_size result.
Proof.
  unfold ListVector_Reserve, GetListCapacity. cbn.
  destruct (reserve_capacity_ge (size (child result)) required) as [Hreq Hcap].
  eexists. split; [done|]. split; [|done].
  unfold size in *. rewrite length_app, length_replicate. lia.
Qed.

(** One row of [parse_statements]: the statements go to the end of the
    entries in use, which stay as they are, and the entry returned
    spans exactly the new ones. *)
Lemma ParseStatementsScalar_lambda_spec `{!DuckDBOk D} query result out :
  well_formed result →
  extracted_from query = Returns out →
  list_size result + size out < 2 ^ 64 →
  ∃ result',
    ParseStatementsScalar_lambda query result
    = Returns ({| list_entry.offset := list_size result;
                  list_entry.length := size out |}, result')
    ∧ well_formed result'
    ∧ list_size result' = list_size result + size out
    ∧ used result' = used result ++ (statement <$> out).
Proof.
  intros [Hpos Hcap] Hout Hfit.
  unfold ParseStatementsScalar_lambda. fold (extracted_from query).
  rewrite Hout. cbn [mbind Outcome_bind]. unfold GetListSize.
  pose proof (size_nonneg out) as Hout_pos.
  rewrite idx_add_small by lia.
  set (new_size := list_size result + size out).
  set (reserved := if GetListCapacity result <? new_size
                   then ListVector_Reserve result new_size else result).
  assert (∃ room, child reserved = child result ++ room
                  ∧ new_size ≤ GetListCapacity reserved) as (room & Hroom & Hnew).
  { subst reserved. destruct (Z.ltb_spec (GetListCapacity result) new_size).
    - destruct (ListVector_Reserve_spec result new_size) as (room & ? & ? & ?).
      by exists room.
    - exists []. by rewrite app_nil_r. }
  eexists. split; [done|].
  (* the buffer, split at the entries in use and the slots to fill *)
  set (c := Z.to_nat (list_size result)).
  set (buffer := child reserved) in *.
  assert (c ≤ length (child result))%nat as Hc.
  { unfold GetListCapacity, size in Hcap. lia. }
  assert (c + length out ≤ length buffer)%nat as Hbuffer.
  { unfold GetListCapacity, size in Hnew. fold buffer in Hnew.
    unfold new_size, size in Hnew. lia. }
  assert (length (take c buffer) = c) as Hpre.
  { rewrite length_take. lia. }
  assert (length (take (length out) (drop c buffer)) = length out) as Hslots.
  { rewrite length_take, length_drop. lia. }
  assert (buffer = take c buffer ++ take (length out) (drop c buffer)
                     ++ drop (length out) (drop c buffer)) as Hsplit.
  { by rewrite !take_drop. }
  assert (take c buffer = used result) as Hused.
  { unfold used. fold c. rewrite Hroom. by apply take_app_le. }
  assert (write_statements buffer (list_size result) 0 out
          = take c buffer ++ (statement <$> out)
              ++ drop (length out) (drop c buffer)) as ->.
  { rewrite Hsplit at 1.
    replace (list_size result) with (Z.of_nat c) by lia.
    apply (write_statements_spec out _ _ _ c 0);
      rewrite ?Nat.add_0_r; [done|done|]. unfold size in Hfit. lia. }
  unfold well_formed, used, GetListCapacity. cbn [child list_size].
  split; [|split; [done|]].
  - split; [unfold new_size; lia|]. unfold size.
    rewrite !length_app, length_fmap, Hpre, !length_drop.
    unfold new_size, size. lia.
  - rewrite Hused. rewrite app_assoc. apply take_app_length'.
    rewrite length_app, length_fmap, length_take.
    unfold new_size, size, c in *. lia.
Qed.

Lemma ParseStatementsScalar_lambda_throws query result e :
  extracted_from query = Throws e →
  ParseStatementsScalar_lambda query result = Throws e.
Proof.
  intros Hout. unfold ParseStatementsScalar_lambda. fold (extracted_from query).
  by rewrite Hout.
Qed.

(** One row of [num_statements]. *)
Lemma NumStatements_lambda_spec `{!DuckDBOk D} query :
  NumStatements_lambda query = size <$> extracted_from query.
Proof.
  unfold NumStatements_lambda. fold (extracted_from query).
  destruct (extracted_from query) as [out|e] eqn:Hout; [|done]. cbn.
  rewrite static_cast_int64_small; [done|].
  pose proof (extracted_from_size_bound _ _ Hout). pose proof (size_nonneg out). lia.
Qed.

Lemma statement_count_nonneg query : 0 ≤ statement_count query.
Proof.
  unfold statement_count. destruct (extracted_from query); [apply size_nonneg|done].
Qed.

Lemma batch_count_nonneg args : 0 ≤ batch_count args.
Proof.
  induction args as [|[query|] args IH]; cbn [batch_count]; [done| |done].
  pose proof (statement_count_nonneg query). lia.
Qed.

Lemma statement_texts_size query : size (statement_texts query) = statement_count query.
Proof.
  unfold statement_texts, statement_count, size.
  destruct (extracted_from query); [by rewrite length_fmap|done].
Qed.

Lemma batch_texts_size args : size (batch_texts args) = batch_count args.
Proof.
  induction args as [|[query|] args IH];
    cbn [batch_texts batch_count]; [done| |done].
  pose proof (statement_texts_size query).
  unfold size in *. rewrite length_app. lia.
Qed.

Lemma batch_count_app args1 args2 :
  batch_count (args1 ++ args2) = batch_count args1 + batch_count args2.
Proof.
  induction args1 as [|[query|] args1 IH]; cbn [batch_count app]; [done| |done].
  rewrite IH. lia.
Qed.

Lemma batch_texts_app args1 args2 :
  batch_texts (args1 ++ args2) = batch_texts args1 ++ batch_texts args2.
Proof.
  induction args1 as [|[query|] args1 IH]; cbn [batch_texts app]; [done| |done].
  by rewrite IH, app_assoc.
Qed.

Lemma NumStatementsScalarFunction_null args :
  NumStatementsScalarFunction (None :: args)
  = (None ::.) <$> NumStatementsScalarFunction args.
Proof.
  unfold NumStatementsScalarFunction. cbn [UnaryExecutor_Execute].
  by destruct (UnaryExecutor_Execute _ args ()) as [[out []]|e].
Qed.

Lemma NumStatementsScalarFunction_row query args :
  NumStatementsScalarFunction (Some query :: args)
  = n ← NumStatements_lambda query;
    (Some n ::.) <$> NumStatementsScalarFunction args.
Proof.
  unfold NumStatementsScalarFunction. cbn [UnaryExecutor_Execute].
  destruct (NumStatements_lambda query) as [n|e]; [|done]. cbn.
  by destruct (UnaryExecutor_Execute _ args ()) as [[out []]|e].
Qed.

(** The two scalar functions over the same batch: they fail together,
    on the same exception, or return together; then every row's entry
    is the one [entries_from] describes, [num_statements] gives its
    length, and the child vector is extended by the batch's texts. *)
Lemma scalar_functions_batch `{!DuckDBOk D} args : ∀ result,
  well_formed result →
  list_size result + batch_count args < 2 ^ 64 →
  match ParseStatementsScalarFunction args result with
  | Returns (entries, result') =>
      NumStatementsScalarFunction args
      = Returns (fmap (M:=option) list_entry.length <$> entries)
      ∧ entries = entries_from (list_size result) args
      ∧ well_formed result'
      ∧ list_size result' = list_size result + batch_count args
      ∧ used result' = used result ++ batch_texts args
  | Throws e => NumStatementsScalarFunction args = Throws e
  end.
Proof.
  unfold ParseStatementsScalarFunction.
  induction args as [|[query|] args IH]; intros result Hwf Hfit.
  - cbn. rewrite app_nil_r. repeat split; (done || apply Hwf || lia).
  - cbn [UnaryExecutor_Execute]. rewrite NumStatementsScalarFunction_row.
    rewrite NumStatements_lambda_spec.
    cbn [batch_count] in Hfit.
    pose proof (batch_count_nonneg args) as Hargs.
    unfold statement_count in Hfit.
    destruct (extracted_from query) as [out|e] eqn:Hout.
    + destruct (ParseStatementsScalar_lambda_spec query result out)
        as (result1 & -> & Hwf1 & Hsize1 & Hused1); [done|done|lia|].
      cbn [mbind Outcome_bind fmap Outcome_fmap].
      specialize (IH result1 Hwf1). rewrite Hsize1 in IH.
      specialize (IH ltac:(lia)).
      destruct (UnaryExecutor_Execute _ args result1) as [[entries result']|e].
      * destruct IH as (-> & -> & Hwf' & Hsize' & Hused').
        cbn [mbind Outcome_bind fmap Outcome_fmap mret Outcome_ret].
        cbn [entries_from batch_count batch_texts].
        unfold statement_count, statement_texts. rewrite Hout.
        repeat split; try done; try apply Hwf'; try lia.
        by rewrite Hused', Hused1, app_assoc.
      * cbn. by rewrite IH.
    + by rewrite (ParseStatementsScalar_lambda_throws _ _ e).
  - cbn [UnaryExecutor_Execute]. rewrite NumStatementsScalarFunction_null.
    specialize (IH result Hwf Hfit).
    destruct (UnaryExecutor_Execute _ args result) as [[entries result']|e].
    + destruct IH as (-> & -> & Hwf' & Hsize' & Hused'). by cbn.
    + cbn. by rewrite IH.
Qed.

Lemma entries_from_length offset args :
  length (entries_from offset args) = length args.
Proof.
  revert offset. induction args as [|[query|] args IH]; intros offset; cbn;
    by rewrite ?IH.
Qed.

Lemma entries_from_lookup args : ∀ offset (i : nat) query,
  args !! i = Some (Some query) →
  entries_from offset args !! i
  = Some (Some {| list_entry.offset := offset + batch_count (take i args);
                  list_entry.length := statement_count query |}).
Proof.
  induction args as [|[q|] args IH]; intros offset [|i] query Hi;
    cbn [entries_from take batch_count]; try done.
  - injection Hi as ->. cbn. by rewrite Z.add_0_r.
  - cbn in Hi. rewrite lookup_cons. rewrite (IH _ _ _ Hi). do 3 f_equal. lia.
  - cbn in Hi. rewrite lookup_cons. by rewrite (IH _ _ _ Hi).
Qed.

Lemma entries_from_lookup_null args : ∀ offset (i : nat),
  args !! i = Some None → entries_from offset args !! i = Some None.
Proof.
  induction args as [|[q|] args IH]; intros offset [|i] Hi;
    cbn [entries_from]; try done; cbn in Hi; rewrite lookup_cons; by apply IH.
Qed.

Lemma entries_from_lookup_inv args : ∀ offset (i : nat) e,
  entries_from offset args !! i = Some (Some e) →
  ∃ query, args !! i = Some (Some query)
           ∧ e = {| list_entry.offset := offset + batch_count (take i args);
                    list_entry.length := statement_count query |}.
Proof.
  intros offset i e He.
  destruct (args !! i) as [[query|]|] eqn:Hi.
  - exists query. split; [done|].
    rewrite (entries_from_lookup _ _ _ _ Hi) in He. by injection He.
  - by rewrite (entries_from_lookup_null _ _ _ Hi) in He.
  - apply lookup_ge_None in Hi. rewrite <- (entries_from_length offset) in Hi.
    apply lookup_ge_None in Hi. by rewrite Hi in He.
Qed.

(** Reading an entry back from a buffer that has [slice] at its offset. *)
Lemma list_value_slice v e pre slice post :
  child v = pre ++ slice ++ post →
  list_entry.offset e = size pre →
  list_entry.length e = size slice →
  list_value v e = slice.
Proof.
  intros Hchild Hoffset Hlength. unfold list_value, size in *.
  rewrite Hchild, Hoffset, Hlength, !Nat2Z.id.
  by rewrite drop_app_length, take_app_length.
Qed.

Lemma used_length v : well_formed v → size (used v) = list_size v.
Proof.
  intros [Hpos Hcap]. unfold used, size, GetListCapacity in *.
  rewrite length_take. unfold size in Hcap. lia.
Qed.

(** Running a batch is running a prefix and then the rest. *)
Lemma UnaryExecutor_Execute_app {S R} (f : string → S → Outcome (R * S)) args1 :
  ∀ args2 captured,
    UnaryExecutor_Execute f (args1 ++ args2) captured
    = '(out1, captured) ← UnaryExecutor_Execute f args1 captured;
      '(out2, captured) ← UnaryExecutor_Execute f args2 captured;
      mret (out1 ++ out2, captured).
Proof.
  induction args1 as [|[input|] args1 IH]; intros args2 captured;
    cbn [app UnaryExecutor_Execute].
  - cbn. by destruct (UnaryExecutor_Execute f args2 captured) as [[? ?]|?].
  - destruct (f input captured) as [[r captured1]|e]; [|done]. cbn.
    rewrite IH.
    destruct (UnaryExecutor_Execute f args1 captured1) as [[out1 captured2]|e]; [|done].
    cbn. by destruct (UnaryExecutor_Execute f args2 captured2) as [[? ?]|?].
  - rewrite IH.
    destruct (UnaryExecutor_Execute f args1 captured) as [[out1 captured2]|e]; [|done].
    cbn. by destruct (UnaryExecutor_Execute f args2 captured2) as [[? ?]|?].
Qed.

(** A batch that returns has no row whose extraction throws. *)
Lemma ParseStatementsScalarFunction_rows_return args : ∀ result entries result' i query,
  ParseStatementsScalarFunction args result = Returns (entries, result') →
  args !! i = Some (Some query) →
  ∃ out, extracted_from query = Returns out.
Proof.
  unfold ParseStatementsScalarFunction.
  induction args as [|[q|] args IH]; intros result entries result' [|i] query Hrun Hi;
    try done; cbn [UnaryExecutor_Execute] in Hrun; cbn in Hi.
  - injection Hi as ->. destruct (extracted_from query) as [out|e] eqn:Hout; [eauto|].
    by rewrite (ParseStatementsScalar_lambda_throws _ _ e) in Hrun.
  - destruct (ParseStatementsScalar_lambda q result) as [[r result1]|e]; [|done].
    cbn in Hrun.
    destruct (UnaryExecutor_Execute _ args result1) as [[out1 result2]|e] eqn:Hrest;
      [|done].
    by eapply IH.
  - destruct (UnaryExecutor_Execute _ args result) as [[out1 result2]|e] eqn:Hrest;
      [|done].
    by eapply IH.
Qed.

(** A batch none of whose rows makes the parser throw anything but a
    [ParserException] is completed. *)
Lemma ParseStatementsScalarFunction_returns `{!DuckDBOk D} args : ∀ result,
  well_formed result →
  list_size result + batch_count args < 2 ^ 64 →
  (∀ (i : nat) query,
     args !! i = Some (Some query) → ∃ out, extracted_from query = Returns out) →
  ∃ entries result',
    ParseStatementsScalarFunction args result = Returns (entries, result').
Proof.
  unfold ParseStatementsScalarFunction.
  induction args as [|[query|] args IH]; intros result Hwf Hfit Hrows;
    cbn [UnaryExecutor_Execute].
  - by eexists _, _.
  - destruct (Hrows 0%nat query eq_refl) as [out Hout].
    cbn [batch_count] in Hfit. unfold statement_count in Hfit. rewrite Hout in Hfit.
    pose proof (batch_count_nonneg args) as Hargs.
    destruct (ParseStatementsScalar_lambda_spec query result out)
      as (result1 & -> & Hwf1 & Hsize1 & _); [done|done|lia|].
    cbn [mbind Outcome_bind].
    destruct (IH result1 Hwf1) as (entries & result' & ->); [lia| |by eexists _, _].
    intros i q Hi. by apply (Hrows (S i)).
  - destruct (IH result Hwf Hfit) as (entries & result' & ->); [|by eexists _, _].
    intros i q Hi. by apply (Hrows (S i)).
Qed.

End scalar_functions.

(** ** The predicate records *)

Section predicates.

Lemma remove_dups_singleton (resolved : list string) table :
  remove_dups resolved = [table] ↔ attributable_to resolved table.
Proof.
  unfold attributable_to. split.
  - intros Hdup. split.
    + intros ->. done.
    + intros t Ht. apply elem_of_remove_dups in Ht. rewrite Hdup in Ht.
      by apply list_elem_of_singleton in Ht.
  - intros [Hne Hall].
    pose proof (NoDup_remove_dups resolved) as Hnodup.
    assert (∀ t, t ∈ remove_dups resolved → t = table) as Hall'.
    { intros t Ht. apply Hall. by apply elem_of_remove_dups. }
    destruct (remove_dups resolved) as [|t1 [|t2 rest]] eqn:Hdup.
    + destruct resolved as [|t resolved]; [done|].
      assert (t ∈ remove_dups (t :: resolved)) as Ht
        by (apply elem_of_remove_dups; left).
      rewrite Hdup in Ht. by apply elem_of_nil in Ht.
    + f_equal. apply Hall'. left.
    + exfalso. apply NoDup_cons_1_1 in Hnodup as Hnotin. apply Hnotin.
      rewrite (Hall' t1) by left. rewrite (Hall' t2) by (right; left). left.
Qed.

Lemma attribute_table_ambiguous resolved :
  (∀ table, ¬ attributable_to resolved table) → attribute_table resolved = "".
Proof.
  intros Hnone. unfold attribute_table.
  destruct (remove_dups resolved) as [|t1 [|t2 rest]] eqn:Hdup; [done| |done].
  exfalso. apply (Hnone t1). by apply remove_dups_singleton.
Qed.

Lemma attribute_table_single resolved table :
  attributable_to resolved table → attribute_table resolved = table.
Proof.
  intros Hone. unfold attribute_table.
  by rewrite (proj2 (remove_dups_singleton resolved table) Hone).
Qed.

End predicates.

(** ** Properties of the statement splitter *)

Section splitter_properties.
Context {D : DuckDB}.

(** C9, as the code has it.  Null entries of the parsed statement vector
    are passed over and [ToString] is applied to non-null entries only,
    so every record added to [results] holds what [ToString] returned for
    a statement that is there, one record per statement and in order.
    When the call returns, the records added are those of all non-null
    entries, and their number is the number of non-null entries.  When
    [ToString] throws at a statement, the call is left by that exception
    with the records of the non-null entries before that statement. *)
Theorem null_statements_skipped sql statements results :
  ParseQuery sql = Returns statements →
  ∃ printed added exit,
    ExtractStatementsFromSQL_in_place sql results = (results ++ added, exit)
    ∧ Forall2 printed_as printed added
    ∧ (∀ r, r ∈ added →
            ∃ stmt, Some stmt ∈ statements ∧ ToString stmt = Returns (statement r))
    ∧ match exit with
      | Returns _ =>
          printed = top_level statements
          ∧ size added = size (filter is_Some statements)
          ∧ ExtractStatementsFromSQL sql results = Returns (results ++ added)
      | Throws e =>
          (∃ stmt rest,
             top_level statements = printed ++ stmt :: rest
             ∧ ToString stmt = Throws e)
          ∧ size added < size (filter is_Some statements)
          ∧ ExtractStatementsFromSQL sql results = Throws e
      end.
Proof.
  intros Hparse.
  destruct (push_statements_spec statements) as (printed & Hprinted & Hexit).
  exists printed, (push_statements [] statements).1, (push_statements [] statements).2.
  split; [by apply ExtractStatementsFromSQL_in_place_accepted|].
  split; [done|].
  assert (∀ stmt, stmt ∈ top_level statements → Some stmt ∈ statements) as Hthere.
  { intros stmt Hin. unfold top_level in Hin.
    apply list_elem_of_omap in Hin as (o & Ho & Hid). cbn in Hid. by subst o. }
  assert (∀ stmt, stmt ∈ printed → stmt ∈ top_level statements) as Hprefix.
  { intros stmt Hin. destruct (push_statements [] statements).2 as [[]|e].
    - by subst printed.
    - destruct Hexit as (bad & rest & -> & _). apply elem_of_app. by left. }
  pose proof Hprinted as Hlength. apply Forall2_length in Hlength.
  unfold ExtractStatementsFromSQL.
  rewrite (ExtractStatementsFromSQL_in_place_accepted _ _ _ Hparse).
  split.
  - intros r Hr. apply list_elem_of_lookup in Hr as [i Hi].
    destruct (Forall2_lookup_r _ _ _ _ _ Hprinted Hi) as (stmt & Hstmt & Hprint).
    exists stmt. split; [|done]. apply Hthere, Hprefix.
    apply list_elem_of_lookup. by exists i.
  - destruct (push_statements [] statements).2 as [[]|e]; cbn [fst snd].
    + split; [done|]. split; [|done]. subst printed. unfold size.
      by rewrite <- Hlength, top_level_length.
    + split; [done|]. split; [|done]. destruct Hexit as (bad & rest & Htop & _).
      pose proof (top_level_length statements) as Hcount.
      rewrite Htop, length_app in Hcount. cbn [length] in Hcount.
      unfold size. lia.
Qed.

(** C2, as the code has it.  When the parser accepts [sql] and the printer
    prints each of its top-level statements (the non-null entries of the
    statement vector), the splitter returns one record per top-level
    statement, in source order, and the record's [statement] is what
    [ToString] returned for that statement: the tree printed back,
    whatever the input text was.  When no entry is null this is one
    record per entry. *)
Theorem one_result_per_statement sql statements :
  ParseQuery sql = Returns statements →
  (∀ stmt, stmt ∈ top_level statements → ∃ text, ToString stmt = Returns text) →
  ∃ out,
    extracted_from sql = Returns out
    ∧ length out = length (top_level statements)
    ∧ (∀ i : nat,
         Returns ∘ statement <$> out !! i = ToString <$> top_level statements !! i)
    ∧ (∀ stmts, statements = Some <$> stmts → Forall2 printed_as stmts out).
Proof.
  intros Hparse Hprints.
  destruct (ExtractStatementsFromSQL_accepted sql statements [] Hparse Hprints)
    as (out & Hout & Hprinted).
  exists out. split; [done|]. split; [|split].
  - symmetry. by apply Forall2_length in Hprinted.
  - intros i. apply Forall2_lookup with (i := i) in Hprinted.
    destruct Hprinted as [stmt r Hprint|]; [|done]. cbn. by rewrite Hprint.
  - intros stmts ->. by rewrite top_level_Some in Hprinted.
Qed.

(** C1.  On a text for which the parser reports a syntax error (throws
    [ParserException]) the extraction adds no record and throws
    nothing.  So the table function, however often it is called, throws
    nothing and leaves every chunk empty, and its scan is the empty
    sequence; the scalar [parse_statements] returns an entry of length
    [0], an empty list; [num_statements] returns [0]; and an extractor
    fed by the splitter returns no record. *)
Theorem syntax_error_yields_nothing sql msg :
  ParseQuery sql = Throws (ParserException msg) →
  (∀ results, ExtractStatementsFromSQL sql results = Returns results)
  ∧ (∀ n : nat,
       ∃ extractions final,
         pulls n (ParseStatementsBind sql) ParseStatementsInit
         = Returns (extractions, final, replicate n []))
  ∧ (∀ fuel : nat,
       table_scan (S fuel) (ParseStatementsBind sql) ParseStatementsInit
       = Returns (Some []))
  ∧ (∀ result,
       ∃ e result',
         ParseStatementsScalarFunction [Some sql] result
         = Returns ([Some e], result')
         ∧ list_entry.length e = 0
         ∧ list_value result' e = [])
  ∧ NumStatementsScalarFunction [Some sql] = Returns [Some 0]
  ∧ (∀ (R : Type) (extractor : StatementResult → list R),
       facade_extract extractor sql = Returns []).
Proof.
  intros Hparse.
  assert (extracted_from sql = Returns []) as Hout
    by by apply (ExtractStatementsFromSQL_syntax_error _ msg).
  split; [|split; [|split; [|split; [|split]]]].
  - intros results. by apply (ExtractStatementsFromSQL_syntax_error _ msg).
  - intros n. eexists _, _. by apply pulls_nothing_found.
  - intros fuel. cbn [table_scan]. by rewrite (pull_first _ _ Hout).
  - intros result.
    unfold ParseStatementsScalarFunction, ParseStatementsScalar_lambda.
    cbn [UnaryExecutor_Execute]. fold (extracted_from sql). rewrite Hout.
    cbn. eexists _, _. split; [done|]. split; [done|].
    unfold list_value. cbn. by rewrite take_0.
  - unfold NumStatementsScalarFunction, NumStatements_lambda.
    cbn [UnaryExecutor_Execute]. fold (extracted_from sql). by rewrite Hout.
  - intros R extractor. unfold facade_extract. by rewrite Hout.
Qed.

End splitter_properties.

(** ** Calls that do not consult the parser *)

Section memoized_calls.
Context (D D' : DuckDB).

(** A call on a state whose collection is not empty uses neither the
    parser nor the printer nor the text of the request: it is the same
    call whatever they are. *)
Lemma memoized_pull_ignores_the_parser bind_data bind_data' state :
  results state ≠ [] →
  @ParseStatementsFunction D bind_data state
  = @ParseStatementsFunction D' bind_data' state.
Proof.
  intros Hne. unfold ParseStatementsFunction. by rewrite (empty_false _ Hne).
Qed.

Lemma memoized_pull_keeps_the_collection bind_data state p :
  results state ≠ [] →
  @ParseStatementsFunction D bind_data state = Returns p →
  results (state_after p) = results state.
Proof.
  intros Hne. unfold ParseStatementsFunction. rewrite (empty_false _ Hne).
  cbn [andb mbind Outcome_bind mret Outcome_ret].
  destruct (_ <=? _); [by intros [= <-]|].
  destruct (_ !! _); [by intros [= <-]|done].
Qed.

Lemma memoized_pulls_ignore_the_parser bind_data bind_data' : ∀ (n : nat) state,
  results state ≠ [] →
  @pulls D n bind_data state = @pulls D' n bind_data' state.
Proof.
  induction n as [|n IH]; intros state Hne; [done|]. cbn [pulls].
  rewrite <- (memoized_pull_ignores_the_parser bind_data bind_data' state Hne).
  destruct (@ParseStatementsFunction D bind_data state) as [p|e] eqn:Hpull; [|done].
  cbn [mbind Outcome_bind]. rewrite IH; [done|].
  by rewrite (memoized_pull_keeps_the_collection _ _ _ Hne Hpull).
Qed.

End memoized_calls.

(** ** Properties of the table function *)

Section table_function_properties.
Context {D : DuckDB}.

(** C4, as the code has it.  The state keeps no record of the
    extraction having run: the test is that the collection is empty and
    the cursor at [0].  Among the calls up to and including the one that
    first leaves the chunk empty (where a host stops calling), the first
    runs the extraction and no other does, also when the extraction finds
    nothing; the chunks are the memoized records, in order.  When the
    extraction finds at least one statement, the same holds for any number
    of calls, the further ones leaving the chunk empty; and the calls
    after the first compute nothing again: on a state that holds the
    collection they do the same whatever parser, printer and text are in
    place, so they consult none of them. *)
Theorem extraction_once_until_end_of_sequence `{!DuckDBOk D} sql out (n : nat) :
  extracted_from sql = Returns out →
  (1 ≤ n)%nat →
  (n ≤ S (length out))%nat ∨ out ≠ [] →
  (∃ first,
     ParseStatementsFunction (ParseStatementsBind sql) ParseStatementsInit
     = Returns first
     ∧ extracted first = true
     ∧ results (state_after first) = out)
  ∧ (∃ final,
       pulls n (ParseStatementsBind sql) ParseStatementsInit
       = Returns (1%nat, final,
                  ((λ r, [row_of r]) <$> take n out) ++ replicate (n - length out) [])
       ∧ results final = out)
  ∧ (∀ (D' : DuckDB) bind_data' state (m : nat),
       results state = out → out ≠ [] →
       @pulls D' m bind_data' state = pulls m (ParseStatementsBind sql) state).
Proof.
  intros Hout Hn Hcase. pose proof (extracted_from_size_bound _ _ Hout) as Hsize.
  split; [|split].
  - eexists. split; [by apply pull_first|]. by destruct out.
  - destruct (decide (out = [])) as [->|Hne].
    + destruct Hcase as [Hle|]; [|done]. cbn [length] in Hle.
      assert (n = 1%nat) as -> by lia. exists ParseStatementsInit.
      by rewrite (pulls_nothing_found sql 1 Hout).
    + destruct n as [|n]; [lia|].
      rewrite (pulls_extract_once sql out n) by (done || lia). by eexists.
  - intros D' bind_data' state m <- Hne. by apply memoized_pulls_ignore_the_parser.
Qed.

(** C5.  One input, the two forms.  When the scalar function returns,
    its row holds one entry, and the table function's scan -- given
    more calls than there are statements -- ends and yields the
    elements of that entry's list, one row each and in the same order.
    When the scalar function throws, the table function's first call
    throws the same exception. *)
Theorem table_rows_are_the_scalar_list `{!DuckDBOk D} sql result :
  well_formed result →
  list_size result + statement_count sql < 2 ^ 64 →
  match ParseStatementsScalarFunction [Some sql] result with
  | Returns (entries, result') =>
      ∃ e, entries = [Some e]
           ∧ ∀ fuel : nat,
               (length (list_value result' e) < fuel)%nat →
               table_scan fuel (ParseStatementsBind sql) ParseStatementsInit
               = Returns (Some (Value_VARCHAR <$> list_value result' e))
  | Throws ex =>
      ∀ fuel : nat,
        table_scan (S fuel) (ParseStatementsBind sql) ParseStatementsInit
        = Throws ex
  end.
Proof.
  intros Hwf Hfit. unfold ParseStatementsScalarFunction.
  cbn [UnaryExecutor_Execute]. unfold statement_count in Hfit.
  destruct (extracted_from sql) as [out|ex] eqn:Hout.
  - destruct (ParseStatementsScalar_lambda_spec sql result out)
      as (result' & -> & Hwf' & Hsize' & Hused'); [done..|].
    cbn. eexists. split; [done|].
    assert (list_value result'
              {| list_entry.offset := list_size result;
                 list_entry.length := size out |} = statement <$> out) as ->.
    { apply (list_value_slice _ _ (used result) _
               (drop (Z.to_nat (list_size result')) (child result'))).
      - rewrite app_assoc, <- Hused'. unfold used. by rewrite take_drop.
      - cbn. by rewrite used_length.
      - cbn. unfold size. by rewrite length_fmap. }
    intros fuel Hfuel. rewrite length_fmap in Hfuel.
    rewrite (table_scan_fresh sql out fuel); [|done| |done].
    + by rewrite <- list_fmap_compose.
    + pose proof (extracted_from_size_bound _ _ Hout). lia.
  - rewrite (ParseStatementsScalar_lambda_throws _ _ ex) by done.
    cbn [mbind Outcome_bind]. intros fuel. cbn [table_scan].
    by rewrite (pull_first_throws _ _ Hout).
Qed.

(** What a host does with a request is to call until the first empty
    chunk, that is [length out + 1] times.  Those calls make one
    extraction, whether or not it found anything, and the last of them
    leaves the chunk empty. *)
Lemma pulls_until_end_extract_once sql out :
  extracted_from sql = Returns out → size out < 2 ^ 64 →
  ∃ final chunks,
    pulls (S (length out)) (ParseStatementsBind sql) ParseStatementsInit
    = Returns (1%nat, final, chunks ++ [[]])
    ∧ chunks = (λ r, [row_of r]) <$> out.
Proof.
  intros Hout Hsize. destruct (decide (out = [])) as [->|Hne].
  - exists ParseStatementsInit, []. cbn [length].
    by rewrite (pulls_nothing_found sql 1 Hout).
  - rewrite (pulls_extract_once sql out (length out)) by done.
    eexists _, _. split; [|done].
    rewrite firstn_all2 by lia.
    by replace (S (length out) - length out)%nat with 1%nat by lia.
Qed.

End table_function_properties.

(** ** Properties of the scalar functions *)

Section scalar_function_properties.
Context {D : DuckDB} `{!DuckDBOk D}.

(** After a batch, the entry of row [i] reads back that row's statement
    texts from the child vector. *)
Lemma batch_list_value args result result' (i : nat) query :
  well_formed result → well_formed result' →
  used result' = used result ++ batch_texts args →
  args !! i = Some (Some query) →
  list_value result'
    {| list_entry.offset := list_size result + batch_count (take i args);
       list_entry.length := statement_count query |}
  = statement_texts query.
Proof.
  intros Hwf Hwf' Hused Hi.
  apply (list_value_slice _ _ (used result ++ batch_texts (take i args)) _
           (batch_texts (drop (S i) args)
              ++ drop (Z.to_nat (list_size result')) (child result'))).
  - rewrite <- (take_drop (Z.to_nat (list_size result')) (child result')) at 1.
    fold (used result'). rewrite Hused.
    rewrite <- (take_drop_middle args i (Some query)) at 1 by done.
    rewrite batch_texts_app. cbn [batch_texts]. by rewrite <- !app_assoc.
  - cbn. unfold size. rewrite length_app.
    pose proof (used_length result Hwf) as Hlen.
    pose proof (batch_texts_size (take i args)) as Hlen'.
    unfold size in *. lia.
  - cbn. by rewrite statement_texts_size.
Qed.

(** C3.  Over any batch of inputs, [num_statements] and the scalar
    [parse_statements] fail together (on the same exception) or return
    together, and then, row by row, the integer of [num_statements] is
    the length of the list [parse_statements] returned for that row
    (NULL for a NULL input). *)
Theorem num_statements_is_the_list_length args result :
  well_formed result →
  list_size result + batch_count args < 2 ^ 64 →
  match ParseStatementsScalarFunction args result with
  | Returns (entries, result') =>
      NumStatementsScalarFunction args
      = Returns (fmap (M:=option) (λ e, size (list_value result' e)) <$> entries)
  | Throws ex => NumStatementsScalarFunction args = Throws ex
  end.
Proof.
  intros Hwf Hfit. pose proof (scalar_functions_batch args result Hwf Hfit) as Hbatch.
  destruct (ParseStatementsScalarFunction args result) as [[entries result']|ex];
    [|done].
  destruct Hbatch as (-> & -> & Hwf' & Hsize' & Hused'). f_equal.
  apply list_fmap_ext. intros i [e|] He; [|done]. cbn. f_equal.
  apply entries_from_lookup_inv in He as (query & Hi & ->).
  rewrite (batch_list_value args result result' i query) by done.
  cbn. by rewrite statement_texts_size.
Qed.

(** C10.  A batch that the scalar [parse_statements] completes: the
    entry of each row with an input starts at the size the child vector
    had when the rows before it were done, is as long as the row's
    statement count, and reads back the row's statements; the slice of
    an earlier row ends before the slice of a later one starts; and the
    child vector has grown by the number of statements of the batch. *)
Theorem batch_entries_are_consecutive_slices args result entries result' :
  well_formed result →
  list_size result + batch_count args < 2 ^ 64 →
  ParseStatementsScalarFunction args result = Returns (entries, result') →
  (∀ (i : nat) query,
     args !! i = Some (Some query) →
     ∃ before out e,
       ParseStatementsScalarFunction (take i args) result
       = Returns (take i entries, before)
       ∧ extracted_from query = Returns out
       ∧ entries !! i = Some (Some e)
       ∧ list_entry.offset e = GetListSize before
       ∧ list_entry.length e = size out
       ∧ list_value result' e = statement <$> out)
  ∧ (∀ (i j : nat) ei ej,
       (i < j)%nat →
       entries !! i = Some (Some ei) → entries !! j = Some (Some ej) →
       list_entry.offset ei + list_entry.length ei ≤ list_entry.offset ej)
  ∧ GetListSize result' = GetListSize result + batch_count args.
Proof.
  intros Hwf Hfit Hrun.
  pose proof (scalar_functions_batch args result Hwf Hfit) as Hbatch.
  rewrite Hrun in Hbatch. destruct Hbatch as (_ & -> & Hwf' & Hsize' & Hused').
  split; [|split; [|done]].
  - intros i query Hi.
    destruct (ParseStatementsScalarFunction_rows_return _ _ _ _ _ _ Hrun Hi)
      as [out Hout].
    (* the rows before row [i] *)
    pose proof Hrun as Hprefix.
    rewrite <- (take_drop i args) in Hprefix at 1.
    unfold ParseStatementsScalarFunction in Hprefix.
    rewrite UnaryExecutor_Execute_app in Hprefix.
    fold (ParseStatementsScalarFunction (take i args) result) in Hprefix.
    pose proof (batch_count_nonneg (drop i args)) as Hrest.
    assert (batch_count args = batch_count (take i args) + batch_count (drop i args))
      as Hcount by by rewrite <- batch_count_app, take_drop.
    assert (list_size result + batch_count (take i args) < 2 ^ 64) as Hfit1 by lia.
    pose proof (scalar_functions_batch (take i args) result Hwf Hfit1) as Hbefore.
    destruct (ParseStatementsScalarFunction (take i args) result)
      as [[entries1 before]|ex]; [|done].
    destruct Hbefore as (_ & -> & _ & Hsize1 & _).
    exists before, out. eexists. split; [|split; [done|split]].
    + do 2 f_equal.
      pose proof (lookup_lt_Some _ _ _ Hi) as Hlt.
      rewrite <- (take_drop i args) at 2.
      clear. revert i. generalize (list_size result) as offset.
      induction args as [|[q|] args IH]; intros offset [|i]; cbn; try done;
        by rewrite <- IH.
    + by apply entries_from_lookup.
    + cbn. unfold GetListSize. split; [lia|]. split.
      * unfold statement_count. by rewrite Hout.
      * rewrite (batch_list_value args result result' i query) by done.
        unfold statement_texts. by rewrite Hout.
  - intros i j ei ej Hij Hei Hej.
    apply entries_from_lookup_inv in Hei as (qi & Hi & ->).
    apply entries_from_lookup_inv in Hej as (qj & Hj & ->). cbn.
    assert (take j args = take i args ++ Some qi :: take (j - S i) (drop (S i) args))
      as ->.
    { rewrite <- (take_drop_middle args i (Some qi)) at 1 by done.
      rewrite take_app, length_take.
      pose proof (lookup_lt_Some _ _ _ Hi).
      rewrite (take_ge (take i args)) by (rewrite length_take; lia).
      replace (j - i `min` length args)%nat with (S (j - S i)) by lia. done. }
    rewrite batch_count_app. cbn [batch_count].
    pose proof (batch_count_nonneg (take (j - S i) (drop (S i) args))). lia.
Qed.

(** C7.  Extraction is a function of the text.  What a call adds to
    [results] does not depend on what [results] held; two extractions of
    the same text, one after the other, give the same records in the same
    order; and two rows of one batch that carry the same text get equal
    lists, although they share the result vector. *)
Theorem extraction_depends_on_the_text_only sql result :
  well_formed result →
  list_size result + batch_count [Some sql; Some sql] < 2 ^ 64 →
  (∀ results,
     ExtractStatementsFromSQL sql results = (results ++.) <$> extracted_from sql)
  ∧ (first ← extracted_from sql; second ← extracted_from sql; mret (first, second))
    = (λ out, (out, out)) <$> extracted_from sql
  ∧ match ParseStatementsScalarFunction [Some sql; Some sql] result with
    | Returns (entries, result') =>
        ∃ e1 e2, entries = [Some e1; Some e2]
                 ∧ list_value result' e1 = list_value result' e2
    | Throws ex => extracted_from sql = Throws ex
    end.
Proof.
  intros Hwf Hfit. split; [|split].
  - intros results. apply ExtractStatementsFromSQL_app.
  - by destruct (extracted_from sql).
  - pose proof (scalar_functions_batch [Some sql; Some sql] result Hwf Hfit) as Hbatch.
    destruct (ParseStatementsScalarFunction [Some sql; Some sql] result)
      as [[entries result']|ex] eqn:Hrun.
    + destruct Hbatch as (_ & -> & Hwf' & _ & Hused').
      cbn [entries_from]. eexists _, _. split; [done|].
      pose proof (batch_list_value [Some sql; Some sql] result result' 0 sql
                    Hwf Hwf' Hused' eq_refl) as H0.
      pose proof (batch_list_value [Some sql; Some sql] result result' 1 sql
                    Hwf Hwf' Hused' eq_refl) as H1.
      cbn [take batch_count] in H0, H1.
      rewrite Z.add_0_r in H0, H1. by rewrite H0, H1.
    + unfold ParseStatementsScalarFunction in Hrun.
      cbn [UnaryExecutor_Execute] in Hrun.
      destruct (extracted_from sql) as [out|ex'] eqn:Hout.
      * exfalso. cbn [batch_count] in Hfit. unfold statement_count in Hfit.
        rewrite Hout in Hfit. pose proof (size_nonneg out).
        destruct (ParseStatementsScalar_lambda_spec sql result out)
          as (result1 & Hrow1 & Hwf1 & Hsize1 & _); [done|done|lia|].
        rewrite Hrow1 in Hrun. cbn [mbind Outcome_bind] in Hrun.
        destruct (ParseStatementsScalar_lambda_spec sql result1 out)
          as (result2 & Hrow2 & _); [done|done|lia|].
        by rewrite Hrow2 in Hrun.
      * rewrite (ParseStatementsScalar_lambda_throws _ _ ex') in Hrun by done.
        by injection Hrun as ->.
Qed.

End scalar_function_properties.

(** ** Properties of the predicate records *)

Section predicate_properties.

(** C8.  A conjunct whose column references do not all belong to one
    and the same table: in the coarse and in the detailed record the
    value handed out for [table_name] is SQL NULL, which is not the
    empty string. *)
Theorem unattributed_table_name_is_null resolved :
  (∀ table, ¬ attributable_to resolved table) →
  (∀ condition context,
     expose_table_name
       (WhereConditionResult.table_name (coarse_record condition context resolved))
     = Value_NULL)
  ∧ (∀ column_name operator_type value context,
       expose_table_name
         (DetailedWhereConditionResult.table_name
            (detailed_record column_name operator_type value context resolved))
       = Value_NULL)
  ∧ Value_NULL ≠ Value_VARCHAR "".
Proof.
  intros Hnone. split; [|split; [|done]]; intros; cbn;
    by rewrite (attribute_table_ambiguous resolved Hnone).
Qed.

(** A conjunct that belongs to one table is handed out with its name. *)
Lemma attributed_table_name_is_exposed resolved table condition context :
  attributable_to resolved table → table ≠ "" →
  expose_table_name
    (WhereConditionResult.table_name (coarse_record condition context resolved))
  = Value_VARCHAR table.
Proof.
  intros Hone Hne. cbn. rewrite (attribute_table_single resolved table Hone).
  unfold expose_table_name. by rewrite bool_decide_eq_false_2.
Qed.

End predicate_properties.

(** ** Re-parsing a record

    Whether the text of a record parses again, to one statement, is a
    property of DuckDB's printer and parser together; the code of the
    extension neither checks nor establishes it.  It holds exactly as far
    as the printer round-trips. *)

Section reparsing.
Context {D : DuckDB}.

Lemma records_reparse_if_printer_round_trips :
  (∀ stmt text, ToString stmt = Returns text → reparses_to_one_statement text) →
  ∀ sql out r,
    extracted_from sql = Returns out → r ∈ out →
    reparses_to_one_statement (statement r).
Proof.
  intros Hround sql out r Hout Hr.
  unfold extracted_from, ExtractStatementsFromSQL, ExtractStatementsFromSQL_in_place
    in Hout.
  destruct (ParseQuery sql) as [statements|[msg|what]]; [| |done].
  - destruct (push_statements_spec statements) as (printed & Hprinted & _).
    destruct (push_statements [] statements) as [added [[]|e]]; [|done].
    cbn [fst snd mbind Outcome_bind mret Outcome_ret] in *. injection Hout as <-.
    apply list_elem_of_lookup in Hr as [i Hi].
    destruct (Forall2_lookup_r _ _ _ _ _ Hprinted Hi) as (stmt & _ & Hprint).
    by apply (Hround stmt).
  - injection Hout as <-. by apply elem_of_nil in Hr.
Qed.

End reparsing.

(** ** The statements above, on the test double *)

Lemma stub_ok : DuckDBOk Stub.duckdb.
Proof.
  split.
  - intros sql statements. cbn. unfold Stub.parse_query.
    repeat case_bool_decide; intros [= <-]; by vm_compute.
  - intros cap n. cbn. unfold Stub.reserve. lia.
Qed.

Section examples.
#[local] Existing Instance Stub.duckdb.
#[local] Existing Instance stub_ok.

Example split_two_statements :
  extracted_from "SELECT 1; SELECT 2;"
  = Returns [{| statement := "SELECT 1" |}; {| statement := "SELECT 2" |}].
Proof. reflexivity. Qed.

Example split_malformed : extracted_from "SELEC * FRM;" = Returns [].
Proof. reflexivity. Qed.

Example split_crash :
  extracted_from "PRAGMA crash" = Throws (OtherException "INTERNAL Error").
Proof. reflexivity. Qed.

Example scan_two_statements :
  table_scan 3 (ParseStatementsBind "SELECT 1; SELECT 2;") ParseStatementsInit
  = Returns (Some [Value_VARCHAR "SELECT 1"; Value_VARCHAR "SELECT 2"]).
Proof. reflexivity. Qed.

Example batch_entries :
  fst <$> ParseStatementsScalarFunction batch empty_result
  = Returns [Some {| list_entry.offset := 0; list_entry.length := 2 |};
             None;
             Some {| list_entry.offset := 2; list_entry.length := 0 |};
             Some {| list_entry.offset := 2; list_entry.length := 1 |}].
Proof. by vm_compute. Qed.

Example batch_child :
  used ∘ snd <$> ParseStatementsScalarFunction batch empty_result
  = Returns ["SELECT 1"; "SELECT 2"; "SELECT 2"].
Proof. by vm_compute. Qed.

Example batch_counts :
  NumStatementsScalarFunction batch = Returns [Some 2; None; Some 0; Some 1].
Proof. by vm_compute. Qed.

(** A script with a null entry between two statements. *)
Lemma null_statements_skipped_witness :
  ParseQuery "SELECT 1;; SELECT 2;"
  = Returns [Some (Stub.Select 1); None; Some (Stub.Select 2)]
  ∧ ∃ printed added exit,
      ExtractStatementsFromSQL_in_place "SELECT 1;; SELECT 2;" [] = ([] ++ added, exit)
      ∧ Forall2 printed_as printed added
      ∧ (∀ r, r ∈ added →
              ∃ stmt, Some stmt ∈ [Some (Stub.Select 1); None; Some (Stub.Select 2)]
                      ∧ ToString stmt = Returns (statement r))
      ∧ match exit with
        | Returns _ =>
            printed = top_level [Some (Stub.Select 1); None; Some (Stub.Select 2)]
            ∧ size added
              = size (filter is_Some [Some (Stub.Select 1); None; Some (Stub.Select 2)])
            ∧ ExtractStatementsFromSQL "SELECT 1;; SELECT 2;" [] = Returns ([] ++ added)
        | Throws e =>
            (∃ stmt rest,
               top_level [Some (Stub.Select 1); None; Some (Stub.Select 2)]
               = printed ++ stmt :: rest
               ∧ ToString stmt = Throws e)
            ∧ size added
              < size (filter is_Some [Some (Stub.Select 1); None; Some (Stub.Select 2)])
            ∧ ExtractStatementsFromSQL "SELECT 1;; SELECT 2;" [] = Throws e
        end.
Proof.
  split; [reflexivity|].
  exact (null_statements_skipped (D:=Stub.duckdb) "SELECT 1;; SELECT 2;"
           [Some (Stub.Select 1); None; Some (Stub.Select 2)] [] eq_refl).
Defined.

(** A script whose second statement the printer does not support: the
    parser finds three statements, none of them null; the call is left by
    the printer's exception with one record, where C9 has three. *)
Lemma printer_exception_counterexample :
  ParseQuery "SELECT 1; VACUUM; SELECT 2;"
  = Returns [Some (Stub.Select 1); Some Stub.Vacuum; Some (Stub.Select 2)]
  ∧ ExtractStatementsFromSQL_in_place "SELECT 1; VACUUM; SELECT 2;" []
    = ([{| statement := "SELECT 1" |}],
       Throws (OtherException "ToString not supported"))
  ∧ size [{| statement := "SELECT 1" |}]
    ≠ size (filter is_Some
              [Some (Stub.Select 1); Some Stub.Vacuum; Some (Stub.Select 2)]).
Proof. split; [reflexivity|]. split; [reflexivity|]. by vm_compute. Qed.

Lemma stub_prints_select (stmt : Stub.stmt) :
  stmt ∈ top_level [Some (Stub.Select 1); Some (Stub.Select 2)] →
  ∃ text, ToString stmt = Returns text.
Proof.
  intros Hin. apply elem_of_cons in Hin as [->|Hin]; [by eexists|].
  apply elem_of_cons in Hin as [->|Hin]; [by eexists|]. by apply elem_of_nil in Hin.
Qed.

(** The splitter on ["SELECT 1; SELECT 2;"], for a parser that finds the
    two statements: two records, in source order. *)
Lemma one_result_per_statement_witness :
  ParseQuery "SELECT 1; SELECT 2;"
  = Returns [Some (Stub.Select 1); Some (Stub.Select 2)]
  ∧ (∀ stmt, stmt ∈ top_level [Some (Stub.Select 1); Some (Stub.Select 2)] →
             ∃ text, ToString stmt = Returns text)
  ∧ ∃ out,
      extracted_from "SELECT 1; SELECT 2;" = Returns out
      ∧ length out = length (top_level [Some (Stub.Select 1); Some (Stub.Select 2)])
      ∧ (∀ i : nat,
           Returns ∘ statement <$> out !! i
           = ToString
               <$> top_level [Some (Stub.Select 1); Some (Stub.Select 2)] !! i)
      ∧ (∀ stmts,
           [Some (Stub.Select 1); Some (Stub.Select 2)] = Some <$> stmts →
           Forall2 printed_as stmts out).
Proof.
  split; [reflexivity|]. split; [exact stub_prints_select|].
  exact (one_result_per_statement (D:=Stub.duckdb) "SELECT 1; SELECT 2;"
           [Some (Stub.Select 1); Some (Stub.Select 2)] eq_refl stub_prints_select).
Defined.

(** A text the parser accepts, with three top-level statements, for which
    the splitter returns no record at all: the printer throws at the
    second statement and nothing catches it. *)
Lemma accepted_text_without_result_counterexample :
  ParseQuery "SELECT 1; VACUUM; SELECT 2;"
  = Returns [Some (Stub.Select 1); Some Stub.Vacuum; Some (Stub.Select 2)]
  ∧ extracted_from "SELECT 1; VACUUM; SELECT 2;"
    = Throws (OtherException "ToString not supported")
  ∧ ¬ ∃ out, extracted_from "SELECT 1; VACUUM; SELECT 2;" = Returns out.
Proof.
  split; [reflexivity|]. split; [reflexivity|]. intros [out Hout].
  vm_compute in Hout. discriminate Hout.
Qed.

Lemma syntax_error_yields_nothing_witness :
  ParseQuery "SELEC * FRM;" = Throws (ParserException "syntax error")
  ∧ (∀ results, ExtractStatementsFromSQL "SELEC * FRM;" results = Returns results)
  ∧ (∀ n : nat,
       ∃ extractions final,
         pulls n (ParseStatementsBind "SELEC * FRM;") ParseStatementsInit
         = Returns (extractions, final, replicate n []))
  ∧ (∀ fuel : nat,
       table_scan (S fuel) (ParseStatementsBind "SELEC * FRM;") ParseStatementsInit
       = Returns (Some []))
  ∧ (∀ result,
       ∃ e result',
         ParseStatementsScalarFunction [Some "SELEC * FRM;"] result
         = Returns ([Some e], result')
         ∧ list_entry.length e = 0
         ∧ list_value result' e = [])
  ∧ NumStatementsScalarFunction [Some "SELEC * FRM;"] = Returns [Some 0]
  ∧ (∀ (R : Type) (extractor : StatementResult → list R),
       facade_extract extractor "SELEC * FRM;" = Returns []).
Proof.
  split; [reflexivity|].
  exact (syntax_error_yields_nothing (D:=Stub.duckdb) "SELEC * FRM;"
           "syntax error" eq_refl).
Defined.

(** Two calls on a request for a malformed text: two extractions, where
    C4 has one.  The first call leaves the state as it was initialized;
    that the next call on it parses again shows in its outcome, which is
    the parser's: with a parser in place that always throws, it throws. *)
Lemma extraction_repeated_counterexample :
  pulls 2 (ParseStatementsBind "SELEC * FRM;") ParseStatementsInit
  = Returns (2%nat, ParseStatementsInit, [[]; []])
  ∧ (¬ ∃ final chunks,
         pulls 2 (ParseStatementsBind "SELEC * FRM;") ParseStatementsInit
         = Returns (1%nat, final, chunks))
  ∧ pulls 1 (ParseStatementsBind "SELEC * FRM;") ParseStatementsInit
    = Returns (1%nat, ParseStatementsInit, [[]])
  ∧ @ParseStatementsFunction Probe.probe (ParseStatementsBind "SELEC * FRM;")
      ParseStatementsInit
    = Throws (OtherException "parser called").
Proof.
  split; [reflexivity|]. split; [|split; reflexivity].
  intros (final & chunks & Hpulls). vm_compute in Hpulls. discriminate Hpulls.
Qed.

(** Five calls on a request with two statements, three of them past the
    end of the sequence. *)
Lemma extraction_once_until_end_of_sequence_witness :
  extracted_from "SELECT 1; SELECT 2;" = Returns (results second_call)
  ∧ (1 ≤ 5)%nat
  ∧ ((5 ≤ S (length (results second_call)))%nat ∨ results second_call ≠ [])
  ∧ (∃ first,
       ParseStatementsFunction (ParseStatementsBind "SELECT 1; SELECT 2;")
         ParseStatementsInit
       = Returns first
       ∧ extracted first = true
       ∧ results (state_after first) = results second_call)
  ∧ (∃ final,
       pulls 5 (ParseStatementsBind "SELECT 1; SELECT 2;") ParseStatementsInit
       = Returns (1%nat, final,
                  ((λ r, [row_of r]) <$> take 5 (results second_call))
                    ++ replicate (5 - length (results second_call)) [])
       ∧ results final = results second_call)
  ∧ (∀ (D' : DuckDB) bind_data' state (m : nat),
       results state = results second_call → results second_call ≠ [] →
       @pulls D' m bind_data' state
       = pulls m (ParseStatementsBind "SELECT 1; SELECT 2;") state).
Proof.
  split; [reflexivity|]. split; [lia|]. split; [by right|].
  apply (extraction_once_until_end_of_sequence (D:=Stub.duckdb) "SELECT 1; SELECT 2;"
           (results second_call) 5); [reflexivity|lia|by right].
Defined.

(** The later calls of that request with the parser replaced by one that
    throws whenever it is called: the rows are handed out all the same. *)
Example pulls_with_the_parser_gone :
  @pulls Probe.probe 4 (ParseStatementsBind "SELECT 1; SELECT 2;") second_call
  = Returns (0%nat, {| row := 2; results := results second_call |},
             [[Value_VARCHAR "SELECT 2"]; []; []; []]).
Proof. reflexivity. Qed.

(** Five calls on a request with two statements: one extraction, the two
    rows, then empty chunks. *)
Example pulls_past_the_end :
  pulls 5 (ParseStatementsBind "SELECT 1; SELECT 2;") ParseStatementsInit
  = Returns (1%nat,
             {| row := 2; results := [{| statement := "SELECT 1" |};
                                      {| statement := "SELECT 2" |}] |},
             [[Value_VARCHAR "SELECT 1"]; [Value_VARCHAR "SELECT 2"]; []; []; []]).
Proof. reflexivity. Qed.

Lemma empty_result_well_formed : well_formed empty_result.
Proof. unfold well_formed, GetListCapacity, size. cbn. lia. Qed.

Lemma table_rows_are_the_scalar_list_witness :
  well_formed empty_result
  ∧ list_size empty_result + statement_count "SELECT 1; SELECT 2;" < 2 ^ 64
  ∧ match ParseStatementsScalarFunction [Some "SELECT 1; SELECT 2;"] empty_result with
    | Returns (entries, result') =>
        ∃ e, entries = [Some e]
             ∧ ∀ fuel : nat,
                 (length (list_value result' e) < fuel)%nat →
                 table_scan fuel (ParseStatementsBind "SELECT 1; SELECT 2;")
                   ParseStatementsInit
                 = Returns (Some (Value_VARCHAR <$> list_value result' e))
    | Throws ex =>
        ∀ fuel : nat,
          table_scan (S fuel) (ParseStatementsBind "SELECT 1; SELECT 2;")
            ParseStatementsInit
          = Throws ex
    end.
Proof.
  split; [apply empty_result_well_formed|]. split; [by vm_compute|].
  apply (table_rows_are_the_scalar_list (D:=Stub.duckdb) "SELECT 1; SELECT 2;"
           empty_result); [apply empty_result_well_formed|by vm_compute].
Defined.

Lemma num_statements_is_the_list_length_witness :
  well_formed empty_result
  ∧ list_size empty_result + batch_count batch < 2 ^ 64
  ∧ match ParseStatementsScalarFunction batch empty_result with
    | Returns (entries, result') =>
        NumStatementsScalarFunction batch
        = Returns (fmap (M:=option) (λ e, size (list_value result' e)) <$> entries)
    | Throws ex => NumStatementsScalarFunction batch = Throws ex
    end.
Proof.
  split; [apply empty_result_well_formed|]. split; [by vm_compute|].
  apply (num_statements_is_the_list_length (D:=Stub.duckdb) batch empty_result);
    [apply empty_result_well_formed|by vm_compute].
Defined.

Lemma extraction_depends_on_the_text_only_witness :
  well_formed empty_result
  ∧ list_size empty_result
    + batch_count [Some "SELECT 1; SELECT 2;"; Some "SELECT 1; SELECT 2;"] < 2 ^ 64
  ∧ (∀ results,
       ExtractStatementsFromSQL "SELECT 1; SELECT 2;" results
       = (results ++.) <$> extracted_from "SELECT 1; SELECT 2;")
  ∧ (first ← extracted_from "SELECT 1; SELECT 2;";
     second ← extracted_from "SELECT 1; SELECT 2;";
     mret (first, second))
    = (λ out, (out, out)) <$> extracted_from "SELECT 1; SELECT 2;"
  ∧ match ParseStatementsScalarFunction
            [Some "SELECT 1; SELECT 2;"; Some "SELECT 1; SELECT 2;"] empty_result with
    | Returns (entries, result') =>
        ∃ e1 e2, entries = [Some e1; Some e2]
                 ∧ list_value result' e1 = list_value result' e2
    | Throws ex => extracted_from "SELECT 1; SELECT 2;" = Throws ex
    end.
Proof.
  split; [apply empty_result_well_formed|]. split; [by vm_compute|].
  apply (extraction_depends_on_the_text_only (D:=Stub.duckdb) "SELECT 1; SELECT 2;"
           empty_result); [apply empty_result_well_formed|by vm_compute].
Defined.

Lemma batch_entries_are_consecutive_slices_witness :
  well_formed empty_result
  ∧ list_size empty_result + batch_count batch < 2 ^ 64
  ∧ ParseStatementsScalarFunction batch empty_result
    = Returns (batch_result.1, batch_result.2)
  ∧ (∀ (i : nat) query,
       batch !! i = Some (Some query) →
       ∃ before out e,
         ParseStatementsScalarFunction (take i batch) empty_result
         = Returns (take i batch_result.1, before)
         ∧ extracted_from query = Returns out
         ∧ batch_result.1 !! i = Some (Some e)
         ∧ list_entry.offset e = GetListSize before
         ∧ list_entry.length e = size out
         ∧ list_value batch_result.2 e = statement <$> out)
  ∧ (∀ (i j : nat) ei ej,
       (i < j)%nat →
       batch_result.1 !! i = Some (Some ei) → batch_result.1 !! j = Some (Some ej) →
       list_entry.offset ei + list_entry.length ei ≤ list_entry.offset ej)
  ∧ GetListSize batch_result.2 = GetListSize empty_result + batch_count batch.
Proof.
  split; [apply empty_result_well_formed|]. split; [by vm_compute|].
  split; [by vm_compute|].
  apply (batch_entries_are_consecutive_slices (D:=Stub.duckdb) batch empty_result
           batch_result.1 batch_result.2);
    [apply empty_result_well_formed|by vm_compute|by vm_compute].
Defined.

Lemma two_tables_not_attributable table : ¬ attributable_to ["a"; "b"] table.
Proof.
  intros [_ Hall].
  assert ("a" = table) as Ha by (apply Hall; left).
  assert ("b" = table) as Hb by (apply Hall; right; left).
  by subst table.
Qed.

(** A conjunct over columns of [a] and of [b]. *)
Lemma unattributed_table_name_is_null_witness :
  (∀ table, ¬ attributable_to ["a"; "b"] table)
  ∧ (∀ condition context,
       expose_table_name
         (WhereConditionResult.table_name
            (coarse_record condition context ["a"; "b"]))
       = Value_NULL)
  ∧ (∀ column_name operator_type value context,
       expose_table_name
         (DetailedWhereConditionResult.table_name
            (detailed_record column_name operator_type value context ["a"; "b"]))
       = Value_NULL)
  ∧ Value_NULL ≠ Value_VARCHAR "".
Proof.
  split; [apply two_tables_not_attributable|].
  exact (unattributed_table_name_is_null ["a"; "b"] two_tables_not_attributable).
Defined.

End examples.

(** ** A printer that does not round-trip

    The same parser with a printer whose output the parser rejects: the
    splitter returns the record all the same, and its text does not parse.
    Together with [records_reparse_if_printer_round_trips] this shows that
    re-parsing is decided by DuckDB alone. *)

Section lossy_printer.
#[local] Existing Instance LossyPrinter.lossy.

Lemma record_does_not_reparse :
  extracted_from "SELECT 1" = Returns [{| statement := "<statement>" |}]
  ∧ ParseQuery "<statement>" = Throws (ParserException "syntax error").
Proof. split; reflexivity. Qed.

End lossy_printer.

(** ** Further properties of the table function *)

Section table_function_calls.
Context {D : DuckDB}.

(** A call throws only what the extraction threw, so only when it had to
    extract. *)
Lemma throwing_call_extracts bind_data state e :
  0 ≤ row state →
  ParseStatementsFunction bind_data state = Throws e →
  results state = [] ∧ row state = 0 ∧ extracted_from (sql bind_data) = Throws e.
Proof.
  intros Hpos. unfold ParseStatementsFunction.
  destruct (empty (results state) && (row state =? 0)) eqn:Hfirst.
  - apply andb_prop in Hfirst as [Hempty Hrow]. apply Z.eqb_eq in Hrow.
    assert (results state = []) as Hnil by by destruct (results state).
    rewrite Hnil. fold (extracted_from (sql bind_data)).
    destruct (extracted_from (sql bind_data)) as [out|ex] eqn:Hextract.
    + cbn. destruct (Z.leb_spec (size out) (row state)) as [|Hlt]; [done|].
      destruct (out !! Z.to_nat (row state)) eqn:Hlookup; [done|].
      apply lookup_ge_None in Hlookup. unfold size in Hlt. lia.
    + cbn. by intros [= <-].
  - cbn. destruct (Z.leb_spec (size (results state)) (row state)) as [|Hlt]; [done|].
    destruct (results state !! Z.to_nat (row state)) eqn:Hlookup; [done|].
    apply lookup_ge_None in Hlookup. unfold size in Hlt. lia.
Qed.

(** X1.  The access [state.results[state.row]] is always inside the
    vector ([row] is unsigned, so not negative): whatever a call of the
    table function throws left the extraction, so the call was one that
    extracts, on a state with an empty collection and the cursor at [0],
    and the exception is the parser's, which is then not a
    [ParserException], or the printer's, at a statement of the accepted
    text. *)
Theorem table_function_never_indexes_out_of_range bind_data state e :
  0 ≤ row state →
  ParseStatementsFunction bind_data state = Throws e →
  results state = [] ∧ row state = 0
  ∧ ((ParseQuery (sql bind_data) = Throws e ∧ ∀ msg, e ≠ ParserException msg)
     ∨ (∃ statements stmt,
          ParseQuery (sql bind_data) = Returns statements
          ∧ Some stmt ∈ statements
          ∧ ToString stmt = Throws e)).
Proof.
  intros Hpos Hthrows.
  destruct (throwing_call_extracts _ _ _ Hpos Hthrows)
    as (Hnil & Hrow & Hextract).
  split; [done|]. split; [done|]. by apply extracted_from_throws_inv.
Qed.

(** X2.  One call, from any state whose cursor is in range.  The cursor
    stays in range; a collection that is not empty is left as it is; the
    chunk holds the record under the cursor, if there is one, and nothing
    else; and the cursor moves on by the number of rows handed out. *)
Theorem table_function_step `{!DuckDBOk D} bind_data state p :
  cursor_in_range state →
  size (results state) < 2 ^ 63 →
  ParseStatementsFunction bind_data state = Returns p →
  cursor_in_range (state_after p)
  ∧ size (results (state_after p)) < 2 ^ 63
  ∧ (results state ≠ [] → results (state_after p) = results state)
  ∧ output p
    = row_of <$> option_list (results (state_after p) !! Z.to_nat (row state))
  ∧ row (state_after p) = row state + size (output p).
Proof.
  intros [Hpos Hle] Hsize. unfold ParseStatementsFunction, cursor_in_range.
  destruct state as [k memo]. cbn [row results] in *.
  destruct memo as [|r memo].
  - (* nothing memoized: the cursor is at 0 and the extraction runs *)
    assert (k = 0) as -> by (unfold size in Hle; cbn in Hle; lia).
    cbn [empty andb Z.eqb]. fold (extracted_from (sql bind_data)).
    destruct (extracted_from (sql bind_data)) as [out|ex] eqn:Hout; [|done].
    pose proof (extracted_from_size_bound _ _ Hout) as Hout_size.
    cbn [mbind Outcome_bind mret Outcome_ret app results row].
    destruct out as [|r out].
    + intros [= <-]. cbn. unfold size. cbn. repeat split; (done || lia).
    + cbn. intros [= <-]. cbn. unfold size in *. cbn [length] in *.
      change (idx_add 0 1) with 1. repeat split; (done || lia).
  - cbn [empty andb mbind Outcome_bind mret Outcome_ret results row].
    destruct (Z.leb_spec (size (r :: memo)) k) as [Hend|Hmore].
    + intros [= <-]. cbn [state_after output results row].
      rewrite lookup_ge_None_2 by (unfold size in *; lia). cbn.
      unfold size in *. cbn [length] in *. repeat split; (done || lia).
    + destruct ((r :: memo) !! Z.to_nat k) as [r'|] eqn:Hlookup.
      * intros [= <-]. cbn [state_after output results row]. rewrite Hlookup.
        unfold idx_add, idx_wrap. rewrite Z.mod_small by lia.
        cbn. unfold size in *. cbn [length] in *. repeat split; (done || lia).
      * apply lookup_ge_None in Hlookup. unfold size in Hmore. lia.
Qed.

(** The two readings of the table function agree. *)
Lemma ParseStatementsFunction_in_place_agrees bind_data state :
  ParseStatementsFunction bind_data state
  = match ParseStatementsFunction_in_place bind_data state with
    | (state', Returns (first, chunk)) =>
        Returns {| extracted := first; state_after := state'; output := chunk |}
    | (_, Throws e) => Throws e
    end.
Proof.
  unfold ParseStatementsFunction, ParseStatementsFunction_in_place,
    ExtractStatementsFromSQL.
  destruct state as [k memo]. cbn [row results].
  destruct (empty memo && (k =? 0)).
  - destruct (ExtractStatementsFromSQL_in_place (sql bind_data) memo)
      as [memo' [[]|e]]; [|done].
    cbn [mbind Outcome_bind mret Outcome_ret row results].
    destruct (_ <=? _); [done|]. by destruct (_ !! _).
  - cbn [mbind Outcome_bind mret Outcome_ret row results].
    destruct (_ <=? _); [done|]. by destruct (_ !! _).
Qed.

(** X9.  What a call that throws leaves in the state.  The call was the
    one that extracts; the cursor is still at [0], and the collection
    holds what the extraction had pushed when the exception left it:
    nothing when the parser threw, and when the printer threw at a
    statement, one record for each non-null statement before it. *)
Theorem table_function_state_after_exception bind_data state e :
  0 ≤ row state →
  ParseStatementsFunction bind_data state = Throws e →
  ∃ pushed,
    ParseStatementsFunction_in_place bind_data state
    = ({| row := 0; results := pushed |}, Throws e)
    ∧ ExtractStatementsFromSQL_in_place (sql bind_data) [] = (pushed, Throws e)
    ∧ ((∀ msg, e ≠ ParserException msg) ∧ ParseQuery (sql bind_data) = Throws e
       ∧ pushed = []
       ∨ ∃ statements printed stmt rest,
           ParseQuery (sql bind_data) = Returns statements
           ∧ top_level statements = printed ++ stmt :: rest
           ∧ ToString stmt = Throws e
           ∧ Forall2 printed_as printed pushed).
Proof.
  intros Hpos Hthrows.
  destruct (throwing_call_extracts bind_data state e Hpos Hthrows)
    as (Hnil & Hrow & Hextract).
  rewrite ParseStatementsFunction_in_place_agrees in Hthrows.
  unfold ParseStatementsFunction_in_place in *. rewrite Hnil, Hrow in *.
  cbn [empty andb Z.eqb] in *.
  exists (ExtractStatementsFromSQL_in_place (sql bind_data) []).1.
  unfold extracted_from, ExtractStatementsFromSQL in Hextract.
  destruct (ExtractStatementsFromSQL_in_place (sql bind_data) [])
    as [pushed [[]|e']] eqn:Hin_place; [done|].
  cbn [mbind Outcome_bind fst] in *. injection Hextract as ->.
  split; [done|]. split; [done|].
  unfold ExtractStatementsFromSQL_in_place in Hin_place.
  destruct (ParseQuery (sql bind_data)) as [statements|[msg|what]] eqn:Hparse.
  - right. destruct (push_statements_spec statements) as (printed & Hprinted & Hexit).
    rewrite Hin_place in Hprinted, Hexit. cbn [fst snd] in *.
    destruct Hexit as (stmt & rest & Htop & Hbad).
    by exists statements, printed, stmt, rest.
  - done.
  - left. injection Hin_place as <- <-. by split.
Qed.

End table_function_calls.

(** ** Further properties across the entry points *)

Section entry_points.
Context {D : DuckDB}.

(** A scan that is given no more calls than there are records left does
    not reach the end. *)
Lemma table_scan_short bind_data out : ∀ (fuel k : nat),
  out ≠ [] → size out < 2 ^ 64 → (k + fuel ≤ length out)%nat →
  table_scan fuel bind_data {| row := Z.of_nat k; results := out |} = Returns None.
Proof.
  induction fuel as [|fuel IH]; intros k Hne Hsize Hfuel; [done|].
  cbn [table_scan]. destruct (out !! k) as [r|] eqn:Hk.
  - rewrite (pull_memoized _ _ _ r) by done.
    cbn [mbind Outcome_bind extracted state_after output].
    by rewrite IH by (done || lia).
  - apply lookup_ge_None in Hk. lia.
Qed.

(** X3.  The table function hands out as many rows as [num_statements]
    counts, and one per call: a scan given more calls than that number
    ends with exactly that many rows, a scan given no more calls than
    that number has not reached the end.  The number is never negative. *)
Theorem table_function_yields_num_statements_rows `{!DuckDBOk D} sql n :
  NumStatements_lambda sql = Returns n →
  0 ≤ n < 2 ^ 63
  ∧ (∀ fuel : nat,
       (Z.to_nat n < fuel)%nat →
       ∃ rows,
         table_scan fuel (ParseStatementsBind sql) ParseStatementsInit
         = Returns (Some rows)
         ∧ size rows = n)
  ∧ (∀ fuel : nat,
       (fuel ≤ Z.to_nat n)%nat →
       table_scan fuel (ParseStatementsBind sql) ParseStatementsInit = Returns None).
Proof.
  rewrite NumStatements_lambda_spec.
  destruct (extracted_from sql) as [out|ex] eqn:Hout; [|done]. intros [= <-].
  pose proof (extracted_from_size_bound _ _ Hout) as Hsize.
  pose proof (size_nonneg out) as Hpos.
  split; [done|]. split.
  - intros fuel Hfuel. exists (row_of <$> out). split.
    + apply table_scan_fresh; [done|lia|unfold size in Hfuel; lia].
    + unfold size. by rewrite length_fmap.
  - intros [|fuel] Hfuel; [done|]. cbn [table_scan].
    rewrite (pull_first _ _ Hout).
    destruct out as [|r out]; [unfold size in Hfuel; cbn in Hfuel; lia|].
    cbn [mbind Outcome_bind extracted state_after output].
    rewrite (table_scan_short _ _ fuel 1); [done|done|lia|].
    unfold size in Hfuel. cbn [length] in *. lia.
Qed.

(** The two lambdas return whenever the extraction does. *)
Lemma ParseStatementsScalar_lambda_returns query result out :
  extracted_from query = Returns out →
  ∃ e result', ParseStatementsScalar_lambda query result = Returns (e, result').
Proof.
  intros Hout. unfold ParseStatementsScalar_lambda. fold (extracted_from query).
  rewrite Hout. by eexists _, _.
Qed.

(** X4.  An exception that leaves the extraction -- the parser's, when it
    is not a [ParserException], or the printer's -- is caught nowhere.  It
    leaves [ExtractStatementsFromSQL] whatever [results] holds, the call
    of the table function on a fresh request, and both scalar functions;
    in a batch the first row whose extraction throws so decides: the
    batch throws that row's exception, whatever the rows after it are,
    and nothing of the earlier rows is returned. *)
Theorem exceptions_of_the_extraction_propagate sql e before after :
  extracted_from sql = Throws e →
  (∀ query, Some query ∈ before → ∃ out, extracted_from query = Returns out) →
  (∀ results, ExtractStatementsFromSQL sql results = Throws e)
  ∧ ParseStatementsFunction (ParseStatementsBind sql) ParseStatementsInit = Throws e
  ∧ (∀ result,
       ParseStatementsScalarFunction (before ++ Some sql :: after) result = Throws e)
  ∧ NumStatementsScalarFunction (before ++ Some sql :: after) = Throws e.
Proof.
  intros Hout Hbefore.
  split; [|split; [|split]].
  - intros results. by rewrite ExtractStatementsFromSQL_app, Hout.
  - by apply pull_first_throws.
  - unfold ParseStatementsScalarFunction.
    induction before as [|[query|] before IH]; intros result;
      cbn [app UnaryExecutor_Execute].
    + by rewrite (ParseStatementsScalar_lambda_throws _ _ _ Hout).
    + destruct (Hbefore query) as [out Hquery]; [left|].
      destruct (ParseStatementsScalar_lambda_returns query result out Hquery)
        as (entry & result' & ->).
      cbn [mbind Outcome_bind]. rewrite IH; [done|].
      intros q Hq. apply Hbefore. by right.
    + rewrite IH; [done|]. intros q Hq. apply Hbefore. by right.
  - induction before as [|[query|] before IH]; cbn [app].
    + rewrite NumStatementsScalarFunction_row.
      unfold NumStatements_lambda. fold (extracted_from sql). by rewrite Hout.
    + rewrite NumStatementsScalarFunction_row.
      destruct (Hbefore query) as [out Hquery]; [left|].
      unfold NumStatements_lambda. fold (extracted_from query). rewrite Hquery.
      cbn [mbind Outcome_bind mret Outcome_ret]. rewrite IH; [done|].
      intros q Hq. apply Hbefore. by right.
    + rewrite NumStatementsScalarFunction_null. rewrite IH; [done|].
      intros q Hq. apply Hbefore. by right.
Qed.

(** Rows whose lambdas agree can be exchanged in a batch. *)
Lemma UnaryExecutor_Execute_exchange {S R} (f : string → S → Outcome (R * S))
    input input' before after :
  (∀ captured, f input captured = f input' captured) →
  ∀ captured,
    UnaryExecutor_Execute f (before ++ Some input :: after) captured
    = UnaryExecutor_Execute f (before ++ Some input' :: after) captured.
Proof.
  intros Hsame captured. rewrite !UnaryExecutor_Execute_app.
  destruct (UnaryExecutor_Execute f before captured) as [[out1 captured1]|e]; [|done].
  cbn [mbind Outcome_bind UnaryExecutor_Execute]. by rewrite Hsame.
Qed.

(** X5.  A syntax error cannot be told from a script without statements.
    A text on which the parser throws [ParserException] and a text it
    accepts with no (non-null) statement give the same result at every
    entry point: call by call in the table function, from any state, and
    row by row in both scalar functions, in any batch. *)
Theorem syntax_error_looks_like_no_statement text text' msg statements :
  ParseQuery text = Throws (ParserException msg) →
  ParseQuery text' = Returns statements →
  top_level statements = [] →
  (∀ state,
     ParseStatementsFunction (ParseStatementsBind text) state
     = ParseStatementsFunction (ParseStatementsBind text') state)
  ∧ (∀ before after result,
       ParseStatementsScalarFunction (before ++ Some text :: after) result
       = ParseStatementsScalarFunction (before ++ Some text' :: after) result)
  ∧ (∀ before after,
       NumStatementsScalarFunction (before ++ Some text :: after)
       = NumStatementsScalarFunction (before ++ Some text' :: after)).
Proof.
  intros Hsql Hsql' Hnone.
  assert (∀ results,
            ExtractStatementsFromSQL text results
            = ExtractStatementsFromSQL text' results) as Hsame.
  { intros results.
    rewrite (ExtractStatementsFromSQL_syntax_error _ _ _ Hsql).
    by rewrite (ExtractStatementsFromSQL_no_statement _ _ _ Hsql' Hnone). }
  split; [|split].
  - intros state. unfold ParseStatementsFunction. cbn [sql ParseStatementsBind].
    by rewrite Hsame.
  - intros before after result. unfold ParseStatementsScalarFunction.
    apply UnaryExecutor_Execute_exchange. intros captured.
    unfold ParseStatementsScalar_lambda. by rewrite Hsame.
  - intros before after. unfold NumStatementsScalarFunction. f_equal.
    apply UnaryExecutor_Execute_exchange. intros captured.
    unfold NumStatements_lambda. by rewrite Hsame.
Qed.

End entry_points.

(** ** Further properties of the scalar [parse_statements] *)

Section list_vector.
Context {D : DuckDB}.

Lemma write_statements_length parsed : ∀ statements current_size i,
  length (write_statements statements current_size i parsed) = length statements.
Proof.
  induction parsed as [|stmt parsed IH]; intros statements current_size i; [done|].
  cbn [write_statements]. by rewrite IH, length_insert.
Qed.

Lemma writes_in_bounds_fit capacity parsed : ∀ (c j : nat),
  Z.of_nat (c + j + length parsed) ≤ capacity →
  Z.of_nat (c + j + length parsed) < 2 ^ 64 →
  writes_in_bounds capacity (Z.of_nat c) (Z.of_nat j) parsed.
Proof.
  induction parsed as [|stmt parsed IH]; intros c j Hcap Hfit; [done|].
  cbn [writes_in_bounds length] in *.
  rewrite idx_add_small by lia. rewrite (idx_add_small _ 1) by lia.
  split; [lia|]. replace (Z.of_nat j + 1) with (Z.of_nat (S j)) by lia.
  apply IH; lia.
Qed.

(** X6.  The writes of one row stay inside the child buffer.  The row's
    lambda returns the vector whose child is the buffer, grown by
    [Reserve] when the new size exceeds the capacity, with the statements
    written by the loop; and every index the loop writes to is below the
    capacity of that buffer. *)
Theorem writes_stay_inside_the_buffer `{!DuckDBOk D} query result out :
  well_formed result →
  extracted_from query = Returns out →
  list_size result + size out < 2 ^ 64 →
  let new_size := idx_add (GetListSize result) (size out) in
  let reserved := if GetListCapacity result <? new_size
                  then ListVector_Reserve result new_size
                  else result in
  ParseStatementsScalar_lambda query result
  = Returns ({| list_entry.offset := GetListSize result;
                list_entry.length := size out |},
             {| child := write_statements (child reserved) (GetListSize result) 0 out;
                list_size := new_size |})
  ∧ writes_in_bounds (GetListCapacity reserved) (GetListSize result) 0 out.
Proof.
  intros [Hpos Hcap] Hout Hfit new_size reserved. split.
  - unfold ParseStatementsScalar_lambda. fold (extracted_from query). by rewrite Hout.
  - pose proof (size_nonneg out) as Hout_pos.
    assert (new_size = list_size result + size out) as Hnew
      by (unfold new_size, GetListSize; by rewrite idx_add_small by lia).
    assert (new_size ≤ GetListCapacity reserved) as Hroom.
    { subst reserved. destruct (Z.ltb_spec (GetListCapacity result) new_size); [|done].
      by destruct (ListVector_Reserve_spec result new_size) as (room & _ & ? & _). }
    unfold GetListSize.
    replace (list_size result) with (Z.of_nat (Z.to_nat (list_size result))) by lia.
    apply (writes_in_bounds_fit _ out _ 0%nat); unfold size in *; lia.
Qed.

(** X7.  A row whose statements fit into the capacity left does not make
    the buffer grow: the capacity is as before, the slots past the new
    size are as before, and a row without statements leaves the whole
    vector as it was. *)
Theorem no_growth_when_the_statements_fit query result out e result' :
  well_formed result →
  extracted_from query = Returns out →
  list_size result + size out ≤ GetListCapacity result →
  list_size result + size out < 2 ^ 64 →
  ParseStatementsScalar_lambda query result = Returns (e, result') →
  GetListCapacity result' = GetListCapacity result
  ∧ drop (Z.to_nat (list_size result')) (child result')
    = drop (Z.to_nat (list_size result')) (child result)
  ∧ (out = [] → result' = result).
Proof.
  intros [Hpos Hcap] Hout Hroom Hfit.
  unfold ParseStatementsScalar_lambda. fold (extracted_from query). rewrite Hout.
  cbn [mbind Outcome_bind mret Outcome_ret]. unfold GetListSize.
  pose proof (size_nonneg out) as Hout_pos.
  rewrite idx_add_small by lia.
  rewrite (proj2 (Z.ltb_ge _ _)) by lia. intros [= <- <-].
  unfold GetListCapacity. cbn [child list_size].
  split; [|split].
  - unfold size. by rewrite write_statements_length.
  - set (c := Z.to_nat (list_size result)).
    assert (c + length out ≤ length (child result))%nat as Hlen
      by (unfold GetListCapacity, size, c in *; lia).
    rewrite <- (take_drop c (child result)) at 1.
    rewrite <- (take_drop (length out) (drop c (child result))) at 1.
    replace (list_size result) with (Z.of_nat c) at 2 by (unfold c; lia).
    rewrite (write_statements_spec out _ _ _ c 0);
      [|rewrite length_take; lia|rewrite length_take, length_drop; lia
       |unfold size in Hfit; unfold c; lia].
    replace (Z.to_nat (list_size result + size out)) with (c + length out)%nat
      by (unfold size, c; lia).
    rewrite app_assoc, drop_app_length'
      by (rewrite length_app, length_take, length_fmap; lia).
    by rewrite drop_drop.
  - intros ->. cbn. rewrite Z.add_0_r. by destruct result.
Qed.

(** The capacity of the buffer never goes down. *)
Lemma ParseStatementsScalar_lambda_capacity query result e result' :
  ParseStatementsScalar_lambda query result = Returns (e, result') →
  GetListCapacity result ≤ GetListCapacity result'.
Proof.
  unfold ParseStatementsScalar_lambda.
  destruct (ExtractStatementsFromSQL query []) as [out|ex]; [|done].
  cbn [mbind Outcome_bind mret Outcome_ret]. intros [= <- <-].
  unfold GetListCapacity, size. cbn [child]. rewrite write_statements_length.
  destruct (_ <? _); [|done]. unfold ListVector_Reserve. cbn [child].
  rewrite length_app. lia.
Qed.

Lemma ParseStatementsScalarFunction_capacity args : ∀ result entries result',
  ParseStatementsScalarFunction args result = Returns (entries, result') →
  GetListCapacity result ≤ GetListCapacity result'.
Proof.
  unfold ParseStatementsScalarFunction.
  induction args as [|[query|] args IH]; intros result entries result';
    cbn [UnaryExecutor_Execute].
  - by intros [= <- <-].
  - destruct (ParseStatementsScalar_lambda query result) as [[e result1]|ex] eqn:Hrow;
      [|done].
    cbn [mbind Outcome_bind].
    destruct (UnaryExecutor_Execute _ args result1) as [[out result2]|ex] eqn:Hrest;
      [|done].
    intros [= <- <-]. apply ParseStatementsScalar_lambda_capacity in Hrow.
    apply IH in Hrest. lia.
  - destruct (UnaryExecutor_Execute _ args result) as [[out result2]|ex] eqn:Hrest;
      [|done].
    intros [= <- <-]. by apply IH in Hrest.
Qed.

Lemma row_lists_entries_from v args : ∀ offset,
  (∀ (i : nat) query,
     args !! i = Some (Some query) →
     list_value v {| list_entry.offset := offset + batch_count (take i args);
                     list_entry.length := statement_count query |}
     = statement_texts query) →
  concat (row_lists v (entries_from offset args)) = batch_texts args.
Proof.
  unfold row_lists.
  induction args as [|[query|] args IH]; intros offset Hrows; [done| |].
  - cbn [entries_from omap list_omap id fmap list_fmap concat batch_texts].
    f_equal.
    + specialize (Hrows 0%nat query eq_refl). cbn [take batch_count] in Hrows.
      by rewrite Z.add_0_r in Hrows.
    + apply IH. intros i q Hi. specialize (Hrows (S i) q Hi).
      cbn [take batch_count] in Hrows. by rewrite Z.add_assoc in Hrows.
  - cbn [entries_from omap list_omap id batch_texts].
    apply IH. intros i q Hi. by specialize (Hrows (S i) q Hi).
Qed.

(** X8.  What a completed batch leaves in the child vector.  The entries
    that were in use stay in front, unchanged; what follows them is the
    lists of the rows, one after the other in row order, with nothing in
    between and nothing after; the size stays within the capacity, and
    the capacity has not gone down. *)
Theorem batch_lists_tile_the_child_vector `{!DuckDBOk D} args result entries result' :
  well_formed result →
  list_size result + batch_count args < 2 ^ 64 →
  ParseStatementsScalarFunction args result = Returns (entries, result') →
  used result' = used result ++ concat (row_lists result' entries)
  ∧ well_formed result'
  ∧ GetListCapacity result ≤ GetListCapacity result'.
Proof.
  intros Hwf Hfit Hrun.
  pose proof (scalar_functions_batch args result Hwf Hfit) as Hbatch.
  rewrite Hrun in Hbatch. destruct Hbatch as (_ & -> & Hwf' & _ & Hused').
  split; [|split; [done|by eapply ParseStatementsScalarFunction_capacity]].
  rewrite Hused'. f_equal. symmetry. apply row_lists_entries_from.
  intros i query Hi. by apply (batch_list_value args result result').
Qed.

End list_vector.

(** ** The further properties, on the test double *)

Section further_examples.
#[local] Existing Instance Stub.duckdb.
#[local] Existing Instance stub_ok.

(** A request for a script with a statement the printer does not
    support: the first call is left by the printer's exception. *)
Lemma table_function_never_indexes_out_of_range_witness :
  0 ≤ row ParseStatementsInit
  ∧ ParseStatementsFunction (ParseStatementsBind "SELECT 1; VACUUM; SELECT 2;")
      ParseStatementsInit
    = Throws (OtherException "ToString not supported")
  ∧ results ParseStatementsInit = [] ∧ row ParseStatementsInit = 0
  ∧ ((ParseQuery (sql (ParseStatementsBind "SELECT 1; VACUUM; SELECT 2;"))
      = Throws (OtherException "ToString not supported")
      ∧ ∀ msg, OtherException "ToString not supported" ≠ ParserException msg)
     ∨ (∃ statements stmt,
          ParseQuery (sql (ParseStatementsBind "SELECT 1; VACUUM; SELECT 2;"))
          = Returns statements
          ∧ Some stmt ∈ statements
          ∧ ToString stmt = Throws (OtherException "ToString not supported"))).
Proof.
  split; [by vm_compute|]. split; [reflexivity|].
  apply (table_function_never_indexes_out_of_range (D:=Stub.duckdb)
           (ParseStatementsBind "SELECT 1; VACUUM; SELECT 2;") ParseStatementsInit);
    [by vm_compute|reflexivity].
Defined.

(** The same request: the state is left with the record of the statement
    before the one the printer does not support. *)
Lemma table_function_state_after_exception_witness :
  0 ≤ row ParseStatementsInit
  ∧ ParseStatementsFunction (ParseStatementsBind "SELECT 1; VACUUM; SELECT 2;")
      ParseStatementsInit
    = Throws (OtherException "ToString not supported")
  ∧ ∃ pushed,
      ParseStatementsFunction_in_place (ParseStatementsBind "SELECT 1; VACUUM; SELECT 2;")
        ParseStatementsInit
      = ({| row := 0; results := pushed |},
         Throws (OtherException "ToString not supported"))
      ∧ ExtractStatementsFromSQL_in_place
          (sql (ParseStatementsBind "SELECT 1; VACUUM; SELECT 2;")) []
        = (pushed, Throws (OtherException "ToString not supported"))
      ∧ ((∀ msg, OtherException "ToString not supported" ≠ ParserException msg)
         ∧ ParseQuery (sql (ParseStatementsBind "SELECT 1; VACUUM; SELECT 2;"))
           = Throws (OtherException "ToString not supported")
         ∧ pushed = []
         ∨ ∃ statements printed stmt rest,
             ParseQuery (sql (ParseStatementsBind "SELECT 1; VACUUM; SELECT 2;"))
             = Returns statements
             ∧ top_level statements = printed ++ stmt :: rest
             ∧ ToString stmt = Throws (OtherException "ToString not supported")
             ∧ Forall2 printed_as printed pushed).
Proof.
  split; [by vm_compute|]. split; [reflexivity|].
  apply (table_function_state_after_exception (D:=Stub.duckdb)
           (ParseStatementsBind "SELECT 1; VACUUM; SELECT 2;") ParseStatementsInit);
    [by vm_compute|reflexivity].
Defined.

Example state_after_printer_exception :
  ParseStatementsFunction_in_place (ParseStatementsBind "SELECT 1; VACUUM; SELECT 2;")
    ParseStatementsInit
  = ({| row := 0; results := [{| statement := "SELECT 1" |}] |},
     Throws (OtherException "ToString not supported")).
Proof. reflexivity. Qed.

Lemma table_function_step_witness :
  cursor_in_range second_call
  ∧ size (results second_call) < 2 ^ 63
  ∧ ParseStatementsFunction (ParseStatementsBind "SELECT 1; SELECT 2;") second_call
    = Returns {| extracted := false;
                 state_after := {| row := 2; results := results second_call |};
                 output := [Value_VARCHAR "SELECT 2"] |}
  ∧ cursor_in_range {| row := 2; results := results second_call |}
  ∧ size (results second_call) < 2 ^ 63
  ∧ (results second_call ≠ [] → results second_call = results second_call)
  ∧ [Value_VARCHAR "SELECT 2"]
    = row_of <$> option_list (results second_call !! Z.to_nat (row second_call))
  ∧ 2 = row second_call + size [Value_VARCHAR "SELECT 2"].
Proof.
  assert (cursor_in_range second_call) as Hin
    by (unfold cursor_in_range, size; cbn; lia).
  split; [exact Hin|]. split; [by vm_compute|]. split; [reflexivity|].
  exact (table_function_step (D:=Stub.duckdb)
           (ParseStatementsBind "SELECT 1; SELECT 2;") second_call
           {| extracted := false;
              state_after := {| row := 2; results := results second_call |};
              output := [Value_VARCHAR "SELECT 2"] |}
           Hin ltac:(by vm_compute) eq_refl).
Defined.

Lemma table_function_yields_num_statements_rows_witness :
  NumStatements_lambda "SELECT 1; SELECT 2;" = Returns 2
  ∧ 0 ≤ 2 < 2 ^ 63
  ∧ (∀ fuel : nat,
       (Z.to_nat 2 < fuel)%nat →
       ∃ rows,
         table_scan fuel (ParseStatementsBind "SELECT 1; SELECT 2;") ParseStatementsInit
         = Returns (Some rows)
         ∧ size rows = 2)
  ∧ (∀ fuel : nat,
       (fuel ≤ Z.to_nat 2)%nat →
       table_scan fuel (ParseStatementsBind "SELECT 1; SELECT 2;") ParseStatementsInit
       = Returns None).
Proof.
  split; [reflexivity|].
  exact (table_function_yields_num_statements_rows (D:=Stub.duckdb)
           "SELECT 1; SELECT 2;" 2 eq_refl).
Defined.

Lemma rows_before_the_failure_return query :
  Some query ∈ [Some "SELECT 1"; None; Some "SELEC * FRM;"] →
  ∃ out, extracted_from query = Returns out.
Proof.
  intros Hin. apply elem_of_cons in Hin as [[= ->]|Hin]; [by eexists|].
  apply elem_of_cons in Hin as [[=]|Hin].
  apply elem_of_cons in Hin as [[= ->]|Hin]; [by eexists|].
  by apply elem_of_nil in Hin.
Qed.

(** A batch whose fourth row has a statement the printer does not
    support and whose fifth row makes the parser fail: the batch is left
    by the printer's exception. *)
Lemma exceptions_of_the_extraction_propagate_witness :
  extracted_from "SELECT 1; VACUUM; SELECT 2;"
  = Throws (OtherException "ToString not supported")
  ∧ (∀ query, Some query ∈ [Some "SELECT 1"; None; Some "SELEC * FRM;"] →
              ∃ out, extracted_from query = Returns out)
  ∧ (∀ results,
       ExtractStatementsFromSQL "SELECT 1; VACUUM; SELECT 2;" results
       = Throws (OtherException "ToString not supported"))
  ∧ ParseStatementsFunction (ParseStatementsBind "SELECT 1; VACUUM; SELECT 2;")
      ParseStatementsInit
    = Throws (OtherException "ToString not supported")
  ∧ (∀ result,
       ParseStatementsScalarFunction
         ([Some "SELECT 1"; None; Some "SELEC * FRM;"]
            ++ Some "SELECT 1; VACUUM; SELECT 2;" :: [Some "PRAGMA crash"]) result
       = Throws (OtherException "ToString not supported"))
  ∧ NumStatementsScalarFunction
      ([Some "SELECT 1"; None; Some "SELEC * FRM;"]
         ++ Some "SELECT 1; VACUUM; SELECT 2;" :: [Some "PRAGMA crash"])
    = Throws (OtherException "ToString not supported").
Proof.
  split; [reflexivity|]. split; [exact rows_before_the_failure_return|].
  exact (exceptions_of_the_extraction_propagate (D:=Stub.duckdb)
           "SELECT 1; VACUUM; SELECT 2;" (OtherException "ToString not supported")
           [Some "SELECT 1"; None; Some "SELEC * FRM;"] [Some "PRAGMA crash"]
           eq_refl rows_before_the_failure_return).
Defined.

(** A malformed text and the empty text. *)
Lemma syntax_error_looks_like_no_statement_witness :
  ParseQuery "SELEC * FRM;" = Throws (ParserException "syntax error")
  ∧ ParseQuery "" = Returns []
  ∧ top_level (@nil (option Stub.stmt)) = []
  ∧ (∀ state,
       ParseStatementsFunction (ParseStatementsBind "SELEC * FRM;") state
       = ParseStatementsFunction (ParseStatementsBind "") state)
  ∧ (∀ before after result,
       ParseStatementsScalarFunction (before ++ Some "SELEC * FRM;" :: after) result
       = ParseStatementsScalarFunction (before ++ Some "" :: after) result)
  ∧ (∀ before after,
       NumStatementsScalarFunction (before ++ Some "SELEC * FRM;" :: after)
       = NumStatementsScalarFunction (before ++ Some "" :: after)).
Proof.
  split; [reflexivity|]. split; [reflexivity|]. split; [reflexivity|].
  exact (syntax_error_looks_like_no_statement (D:=Stub.duckdb) "SELEC * FRM;" ""
           "syntax error" [] eq_refl eq_refl eq_refl).
Defined.

Lemma roomy_result_well_formed : well_formed roomy_result.
Proof. unfold well_formed, GetListCapacity, size. cbn. lia. Qed.

(** Two statements written to a vector without room: [Reserve] makes it. *)
Lemma writes_stay_inside_the_buffer_witness :
  well_formed empty_result
  ∧ extracted_from "SELECT 1; SELECT 2;"
    = Returns [{| statement := "SELECT 1" |}; {| statement := "SELECT 2" |}]
  ∧ list_size empty_result + 2 < 2 ^ 64
  ∧ ParseStatementsScalar_lambda "SELECT 1; SELECT 2;" empty_result
    = Returns ({| list_entry.offset := 0; list_entry.length := 2 |},
               {| child := ["SELECT 1"; "SELECT 2"]; list_size := 2 |})
  ∧ writes_in_bounds 2 0 0
      [{| statement := "SELECT 1" |}; {| statement := "SELECT 2" |}].
Proof.
  split; [apply empty_result_well_formed|]. split; [reflexivity|].
  split; [by vm_compute|].
  exact (writes_stay_inside_the_buffer (D:=Stub.duckdb) "SELECT 1; SELECT 2;"
           empty_result
           [{| statement := "SELECT 1" |}; {| statement := "SELECT 2" |}]
           empty_result_well_formed eq_refl ltac:(by vm_compute)).
Defined.

(** Two statements written to a vector with room for exactly two. *)
Lemma no_growth_when_the_statements_fit_witness :
  well_formed roomy_result
  ∧ extracted_from "SELECT 1; SELECT 2;"
    = Returns [{| statement := "SELECT 1" |}; {| statement := "SELECT 2" |}]
  ∧ list_size roomy_result + 2 ≤ GetListCapacity roomy_result
  ∧ list_size roomy_result + 2 < 2 ^ 64
  ∧ ParseStatementsScalar_lambda "SELECT 1; SELECT 2;" roomy_result
    = Returns ({| list_entry.offset := 1; list_entry.length := 2 |},
               {| child := ["SELECT 0"; "SELECT 1"; "SELECT 2"]; list_size := 3 |})
  ∧ GetListCapacity {| child := ["SELECT 0"; "SELECT 1"; "SELECT 2"]; list_size := 3 |}
    = GetListCapacity roomy_result
  ∧ drop (Z.to_nat 3) ["SELECT 0"; "SELECT 1"; "SELECT 2"]
    = drop (Z.to_nat 3) (child roomy_result)
  ∧ ([{| statement := "SELECT 1" |}; {| statement := "SELECT 2" |}] = [] →
     {| child := ["SELECT 0"; "SELECT 1"; "SELECT 2"]; list_size := 3 |} = roomy_result).
Proof.
  split; [apply roomy_result_well_formed|]. split; [reflexivity|].
  split; [by vm_compute|]. split; [by vm_compute|]. split; [reflexivity|].
  exact (no_growth_when_the_statements_fit (D:=Stub.duckdb) "SELECT 1; SELECT 2;"
           roomy_result
           [{| statement := "SELECT 1" |}; {| statement := "SELECT 2" |}]
           {| list_entry.offset := 1; list_entry.length := 2 |}
           {| child := ["SELECT 0"; "SELECT 1"; "SELECT 2"]; list_size := 3 |}
           roomy_result_well_formed eq_refl ltac:(by vm_compute) ltac:(by vm_compute)
           eq_refl).
Defined.

Lemma batch_lists_tile_the_child_vector_witness :
  well_formed empty_result
  ∧ list_size empty_result + batch_count batch < 2 ^ 64
  ∧ ParseStatementsScalarFunction batch empty_result
    = Returns (batch_result.1, batch_result.2)
  ∧ used batch_result.2
    = used empty_result ++ concat (row_lists batch_result.2 batch_result.1)
  ∧ well_formed batch_result.2
  ∧ GetListCapacity empty_result ≤ GetListCapacity batch_result.2.
Proof.
  split; [apply empty_result_well_formed|]. split; [by vm_compute|].
  split; [by vm_compute|].
  apply (batch_lists_tile_the_child_vector (D:=Stub.duckdb) batch empty_result
           batch_result.1 batch_result.2);
    [apply empty_result_well_formed|by vm_compute|by vm_compute].
Defined.

End further_examples.
